(** * Assistant core: reminder store, notification dispatcher, intent
      classifier and conversation session of [assistant_core/llm_service.py]

    A shallow embedding of the Python module.  Pure helpers become Rocq
    functions; the code that talks to SQLite, the text-to-speech engine, the
    microphone hook, Telegram, the scheduler and the clock is embedded in a
    state-and-exception monad over an explicit [world], with the answers of
    the outside (what is heard, how long a call blocks, what the date parser
    finds, whether a stored time converts to a date, whether Telegram and the
    file system accept a call) read from an [env].

    Left out: console output ([print]), the threads started by
    [on_authorized_user] and [on_unknown_face_and_notify] (each function is
    modelled as one sequential run), and failures of the SQLite layer. *)

From Stdlib Require Import ZArith List Bool Ascii String Lia.
From Stdlib Require Import Sorting.Sorted Numbers.DecimalString.
From Stdlib Require Import Sorting.Permutation Numbers.DecimalZ.
From Stdlib Require Import Numbers.DecimalPos.
Import ListNotations.

Local Open Scope string_scope.
Local Open Scope Z_scope.

(* ================================================================== *)
(** ** Python string helpers *)

Module PyStr.

(** [str.lower()] on one character.  A text is a [string] of 8-bit characters
    (the UTF-8 bytes of the Python string); [A]..[Z] are mapped to [a]..[z]
    and every other byte is kept.  The keywords the classifier looks for are
    lower-case ASCII, and Python's [lower] turns no non-ASCII character into
    a run of ASCII characters that could complete one of them (the only ASCII
    letters it produces from non-ASCII ones are a [k], and an [i] that is
    followed by a combining dot), so this part of [lower] decides every
    match. *)
Definition lower_ascii (c : ascii) : ascii :=
  let n := N_of_ascii c in
  if ((65 <=? n) && (n <=? 90))%N then ascii_of_N (n + 32) else c.

Fixpoint lower (s : string) : string :=
  match s with
  | EmptyString => EmptyString
  | String c s' => String (lower_ascii c) (lower s')
  end.

(** [k in t] for two Python strings: [k] occurs in [t] as a contiguous run. *)
Fixpoint contains (t k : string) : bool :=
  String.prefix k t ||
  match t with
  | EmptyString => false
  | String _ t' => contains t' k
  end.

(** [x or ""] where [x] is a string or [None]. *)
Definition or_empty (x : option string) : string :=
  match x with
  | Some s => s
  | None => ""
  end.

(** [str(n)] for an integer. *)
Definition str_of_Z (n : Z) : string := NilZero.string_of_int (Z.to_int n).

End PyStr.

(* ================================================================== *)
(** ** Intent classification ([parse_intent_simple]) *)

Inductive intent : Type :=
| add_schedule_intent
| show_schedule_intent
| chat_intent.

Definition intent_name (i : intent) : string :=
  match i with
  | add_schedule_intent => "add_schedule"
  | show_schedule_intent => "show_schedule"
  | chat_intent => "chat"
  end.

Definition parse_intent_simple (text : option string) : intent :=
  let t := PyStr.lower (PyStr.or_empty text) in
  if PyStr.contains t "remind me" || PyStr.contains t "schedule"
     || PyStr.contains t "add"
  then add_schedule_intent
  else if PyStr.contains t "show schedule"
          || PyStr.contains t "what's my schedule"
          || PyStr.contains t "my schedule"
  then show_schedule_intent
  else chat_intent.

(** The classifier as the design describes it: an ordered table of rules, each
    a set of keywords with the intent it selects; the first rule one of whose
    keywords occurs in the lower-cased text wins, and [chat] is the default. *)
Definition intent_rules : list (list string * intent) :=
  [ (["remind me"; "schedule"; "add"], add_schedule_intent);
    (["show schedule"; "what's my schedule"; "my schedule"],
     show_schedule_intent) ].

Fixpoint first_match (rules : list (list string * intent)) (t : string)
  : intent :=
  match rules with
  | [] => chat_intent
  | (keys, i) :: rest =>
      if existsb (PyStr.contains t) keys then i else first_match rest t
  end.

Definition classify_by_rules (text : string) : intent :=
  first_match intent_rules (PyStr.lower text).

(** [k] is a substring of [t]. *)
Definition substring_of (k t : string) : Prop :=
  exists pre post, t = pre ++ k ++ post.

(* ================================================================== *)
(** ** The [schedules] table

    [id INTEGER PRIMARY KEY AUTOINCREMENT, user_id TEXT, title TEXT,
     notes TEXT, when_ts INTEGER, notified INTEGER DEFAULT 0].
    The table is the list of its rows in insertion order together with the
    AUTOINCREMENT counter (the largest id handed out so far).  Integer columns
    are [Z]; every value the program stores (ids from the counter, timestamps
    of parsed dates) fits SQLite's 64-bit INTEGER. *)

Module Db.

Record row : Type := mk_row {
  id : Z;
  user_id : string;
  title : string;
  notes : string;
  when_ts : Z;
  notified : Z
}.

Record table : Type := mk_table {
  rows : list row;
  seq : Z
}.

(** A fresh database after [CREATE TABLE IF NOT EXISTS]. *)
Definition empty : table := mk_table [] 0.

(** [INSERT INTO schedules (user_id, title, notes, when_ts) VALUES (?,?,?,?)]
    and [cur.lastrowid]. *)
Definition insert (t : table) (u ti n : string) (w : Z) : table * Z :=
  let rowid := seq t + 1 in
  (mk_table (rows t ++ [mk_row rowid u ti n w 0]) rowid, rowid).

(** [UPDATE schedules SET notified = 1 WHERE id = ?]. *)
Definition set_notified (sid : Z) (r : row) : row :=
  if id r =? sid
  then mk_row (id r) (user_id r) (title r) (notes r) (when_ts r) 1
  else r.

Definition update_notified (t : table) (sid : Z) : table :=
  mk_table (map (set_notified sid) (rows t)) (seq t).

(** [ORDER BY when_ts]: rows in ascending [when_ts]; rows with equal
    [when_ts] keep their table order, as SQLite returns them for this query.
    [insert_by_when r l] puts [r], a row that stands before the rows of [l]
    in the table, in front of the rows of [l] that are not earlier. *)
Fixpoint insert_by_when (r : row) (l : list row) : list row :=
  match l with
  | [] => [r]
  | x :: l' =>
      if when_ts r <=? when_ts x then r :: l else x :: insert_by_when r l'
  end.

Fixpoint order_by_when_ts (l : list row) : list row :=
  match l with
  | [] => []
  | x :: l' => insert_by_when x (order_by_when_ts l')
  end.

(** [LIMIT ?]: a negative bound means no bound in SQLite. *)
Definition limit_rows {A : Type} (n : Z) (l : list A) : list A :=
  if n <? 0 then l else firstn (Z.to_nat n) l.

(** [SELECT title, notes, when_ts FROM schedules WHERE user_id = ?
     ORDER BY when_ts LIMIT ?]. *)
Definition select_upcoming (t : table) (u : string) (lim : Z)
  : list (string * string * Z) :=
  map (fun r => (title r, notes r, when_ts r))
      (limit_rows lim
         (order_by_when_ts
            (filter (fun r => (user_id r =? u)%string) (rows t)))).

(** [SELECT id FROM schedules WHERE when_ts <= ? AND notified = 0]. *)
Definition select_due (t : table) (now_ts : Z) : list Z :=
  map id
      (filter (fun r => (when_ts r <=? now_ts) && (notified r =? 0)) (rows t)).

(** The first row [WHERE id = ?], if any. *)
Definition lookup (t : table) (sid : Z) : option row :=
  find (fun r => id r =? sid) (rows t).

(** [SELECT user_id, title, notes, when_ts FROM schedules WHERE id = ?]
    followed by [fetchone()]. *)
Definition select_by_id (t : table) (sid : Z)
  : option (string * string * string * Z) :=
  match lookup t sid with
  | Some r => Some (user_id r, title r, notes r, when_ts r)
  | None => None
  end.

(** Ascending [when_ts], on rows and on the tuples a query returns. *)
Definition by_when (r1 r2 : row) : Prop := when_ts r1 <= when_ts r2.

Definition tuple_of (r : row) : string * string * Z :=
  (title r, notes r, when_ts r).

Definition tuple_when (x : string * string * Z) : Z := snd x.

Definition tuples_by_when (x y : string * string * Z) : Prop :=
  tuple_when x <= tuple_when y.

(** The PRIMARY KEY AUTOINCREMENT constraint: ids are pairwise distinct,
    positive and never above the counter. *)
Definition well_formed (t : table) : Prop :=
  NoDup (map id (rows t)) /\ 0 <= seq t
  /\ Forall (fun r => 0 < id r <= seq t) (rows t).

End Db.

(* ================================================================== *)
(** ** The world the module acts on *)

(** The two places where the session calls the speech-to-text hook: at the top
    of each turn of the [while] loop, and once more inside the [add_schedule]
    branch when the utterance carried no date. *)
Inductive listen_site : Type :=
| TurnListen
| FollowUpListen.

(** What the module does to the outside, in the order it does it. *)
Inductive event : Type :=
| EvSpeak (msg : string)
| EvListen (site : listen_site) (started : Z) (text : string)
| EvParse (text : string)
| EvSendMessage (text : string) (ok : bool)
| EvSendPhoto (photo : list Byte.byte) (caption : string) (ok : bool)
| EvSaveFile (filename : string) (data : list Byte.byte) (ok : bool).

(** [scheduler.add_job(trigger_notification, ...)]: a job runs
    [trigger_notification(job_arg)], at once or at [run_date]. *)
Inductive trigger : Type :=
| RunNow
| RunDate (run_date : Z).

Record job : Type := mk_job {
  job_id : option string;
  job_trigger : trigger;
  job_arg : Z
}.

Inductive exn : Type :=
| TelegramError
| OSError
| TimestampError.   (* what [datetime.fromtimestamp] raises out of range *)

(** The collaborators the module calls but does not implement.  A parsed
    [datetime] is represented by the integer [int(dt.timestamp())]. *)
Record env : Type := mk_env {
  heard : nat -> string;          (* text the n-th STT call returns *)
  listen_secs : nat -> Z;         (* how long the n-th STT call blocks *)
  speak_secs : string -> Z;       (* how long an utterance takes *)
  dateparser_parse : string -> option Z;
  strftime : Z -> string;         (* '%Y-%m-%d %H:%M' in local time *)
  fromtimestamp_ok : Z -> bool;   (* does datetime.fromtimestamp accept it *)
  isoformat : Z -> string;
  telegram_bot : bool;            (* is TELEGRAM_BOT_TOKEN set *)
  telegram_ok : nat -> bool;      (* does the n-th Bot API call succeed *)
  file_write_ok : string -> bool
}.

Record world : Type := mk_world {
  clock : Z;                      (* time.time(), in the timeout's unit *)
  db : Db.table;                  (* assistant.db *)
  jobs : list job;                (* the scheduler's job store *)
  listens : nat;                  (* STT calls made so far *)
  tg_calls : nat;                 (* Bot API calls made so far *)
  trace : list event              (* oldest first *)
}.

Definition emit (e : event) (w : world) : world :=
  mk_world (clock w) (db w) (jobs w) (listens w) (tg_calls w) (trace w ++ [e]).

Definition advance (d : Z) (w : world) : world :=
  mk_world (clock w + d) (db w) (jobs w) (listens w) (tg_calls w) (trace w).

Definition set_db (t : Db.table) (w : world) : world :=
  mk_world (clock w) t (jobs w) (listens w) (tg_calls w) (trace w).

Definition push_job (j : job) (w : world) : world :=
  mk_world (clock w) (db w) (jobs w ++ [j]) (listens w) (tg_calls w) (trace w).

Definition count_listen (w : world) : world :=
  mk_world (clock w) (db w) (jobs w) (S (listens w)) (tg_calls w) (trace w).

Definition count_tg_call (w : world) : world :=
  mk_world (clock w) (db w) (jobs w) (listens w) (S (tg_calls w)) (trace w).

(** *** State and exceptions *)

Inductive outcome (A : Type) : Type :=
| Ok (a : A)
| Raise (e : exn).

Arguments Ok {A} a.
Arguments Raise {A} e.

Definition M (A : Type) : Type := world -> outcome A * world.

Definition ret {A : Type} (a : A) : M A := fun w => (Ok a, w).

Definition bind {A B : Type} (c : M A) (k : A -> M B) : M B :=
  fun w =>
    match c w with
    | (Ok a, w') => k a w'
    | (Raise e, w') => (Raise e, w')
    end.

Definition raise {A : Type} (e : exn) : M A := fun w => (Raise e, w).

(** [try: c  except Exception as e: h e]. *)
Definition try_except {A : Type} (c : M A) (h : exn -> M A) : M A :=
  fun w =>
    match c w with
    | (Ok a, w') => (Ok a, w')
    | (Raise e, w') => h e w'
    end.

Definition modify (f : world -> world) : M unit := fun w => (Ok tt, f w).
Definition gets {A : Type} (f : world -> A) : M A := fun w => (Ok (f w), w).

Notation "x <- c ;; k" := (bind c (fun x => k))
  (at level 61, c at next level, right associativity).
Notation "c ;; k" := (bind c (fun _ => k))
  (at level 61, right associativity).

(** The world a computation leaves, and the value it returns (if it does not
    raise). *)
Definition exec {A : Type} (c : M A) (w : world) : world := snd (c w).

Definition eval {A : Type} (c : M A) (w : world) : option A :=
  match fst (c w) with
  | Ok a => Some a
  | Raise _ => None
  end.

(** [c] run [n] times in a row. *)
Fixpoint times (n : nat) (c : M unit) : M unit :=
  match n with
  | O => ret tt
  | S n' => c ;; times n' c
  end.

(** Unfold the monad's plumbing and the world updates of one run. *)
Ltac run_m :=
  cbv beta iota zeta delta
    [bind ret raise try_except modify gets exec eval];
  unfold emit, advance, set_db, push_job, count_listen, count_tg_call;
  cbn [fst snd clock db jobs listens tg_calls trace].

(** [for x in xs: body x]. *)
Fixpoint for_each {A : Type} (xs : list A) (body : A -> M unit) : M unit :=
  match xs with
  | [] => ret tt
  | x :: xs' => body x ;; for_each xs' body
  end.

(** The events a run added to the trace. *)
Definition spoken (tr : list event) : list string :=
  flat_map (fun e => match e with EvSpeak m => [m] | _ => [] end) tr.

Definition listen_events (tr : list event) : list event :=
  filter (fun e => match e with EvListen _ _ _ => true | _ => false end) tr.

Definition alert_events (tr : list event) : list event :=
  filter (fun e => match e with
                   | EvSendMessage _ _ | EvSendPhoto _ _ _ => true
                   | _ => false
                   end) tr.

(* ================================================================== *)
(** ** The module's functions *)

Definition DB_PATH : string := "assistant.db".
Definition CAMERA_SAVE_DIR : string := "captured".

Definition AUTHORIZED_USERS : list (string * string) :=
  [("alice", "Alice"); ("bob", "Bob")].

(** [AUTHORIZED_USERS.get(user_id, {}).get("display", user_id)]. *)
Definition display_of (user_id : string) : string :=
  match find (fun p => (fst p =? user_id)%string) AUTHORIZED_USERS with
  | Some p => snd p
  | None => user_id
  end.

Section Program.

Variable E : env.

(** *** Database access *)

(** [CREATE TABLE IF NOT EXISTS]: the table of the model always exists. *)
Definition init_db : M unit := ret tt.

Definition add_schedule (user_id title notes : string) (when_ts : Z) : M Z :=
  t <- gets db ;;
  let (t', rowid) := Db.insert t user_id title notes when_ts in
  modify (set_db t') ;;
  ret rowid.

Definition mark_notified (schedule_id : Z) : M unit :=
  t <- gets db ;;
  modify (set_db (Db.update_notified t schedule_id)).

Definition get_user_upcoming (user_id : string) (limit : Z)
  : M (list (string * string * Z)) :=
  t <- gets db ;;
  ret (Db.select_upcoming t user_id limit).

(** The default value of [limit]. *)
Definition default_limit : Z := 10.

(** *** Speech in and out, clock, date parsing *)

(** [speak]: a blocking text-to-speech call; it is taken not to raise. *)
Definition speak (text : string) : M unit :=
  modify (emit (EvSpeak text)) ;;
  modify (advance (speak_secs E text)).

(** [transcribe_audio_from_mic_demo]: blocks until the hook returns its text. *)
Definition transcribe_audio_from_mic_demo (site : listen_site) : M string :=
  n <- gets listens ;;
  now <- gets clock ;;
  let txt := heard E n in
  modify (emit (EvListen site now txt)) ;;
  modify count_listen ;;
  modify (advance (listen_secs E n)) ;;
  ret txt.

Definition time_time : M Z := gets clock.

Definition reply_with_llm_sim (user_text user_id : string) : string :=
  "I heard: " ++ user_text.

(** [datetime.fromtimestamp(ts)]: the datetime of a stored timestamp, or an
    exception when the timestamp is outside what the platform converts. *)
Definition fromtimestamp (ts : Z) : M Z :=
  if fromtimestamp_ok E ts then ret ts else raise TimestampError.

(** [dateparser.parse(text)]; the call is recorded in the trace. *)
Definition extract_datetime_from_text (text : string) : M (option Z) :=
  modify (emit (EvParse text)) ;;
  ret (dateparser_parse E text).

Definition scheduler_add_job (j : job) : M unit := modify (push_job j).

(** *** Notifications and unknown faces *)

(** One call of the Telegram Bot API: it either goes through or raises. *)
Definition telegram_call (ev : bool -> event) : M unit :=
  n <- gets tg_calls ;;
  modify count_tg_call ;;
  modify (emit (ev (telegram_ok E n))) ;;
  if telegram_ok E n then ret tt else raise TelegramError.

Definition send_photo_to_owner (photo_bytes_io : list Byte.byte)
    (caption : string) : M bool :=
  if negb (telegram_bot E) then ret false
  else
    telegram_call (EvSendPhoto photo_bytes_io caption) ;;
    ret true.

Definition msg_owner_notified : string :=
  "I detected someone I don't recognize — the owner has been notified.".
Definition msg_owner_not_notified : string :=
  "I detected an unknown person but couldn't notify the owner.".
Definition msg_send_error : string :=
  "Failed to send the unknown-person photo due to an error.".

(** [with open(filename, "wb") as f: f.write(...)]: the write goes through or
    raises. *)
Definition save_file (filename : string) (data : list Byte.byte) : M unit :=
  modify (emit (EvSaveFile filename data (file_write_ok E filename))) ;;
  if file_write_ok E filename then ret tt else raise OSError.

(** [os.path.join(CAMERA_SAVE_DIR, f"unknown_{ts}.jpg")]. *)
Definition unknown_face_filename (ts : Z) : string :=
  CAMERA_SAVE_DIR ++ "/" ++ "unknown_" ++ PyStr.str_of_Z ts ++ ".jpg".

Definition on_unknown_face (photo_bytes_io : list Byte.byte) : M unit :=
  ts <- time_time ;;
  let filename := unknown_face_filename ts in
  save_file filename photo_bytes_io ;;
  try_except
    (now <- time_time ;;
     sent <- send_photo_to_owner photo_bytes_io
               ("Unknown person seen at " ++ isoformat E now) ;;
     if sent then speak msg_owner_notified
     else speak msg_owner_not_notified)
    (fun e => speak msg_send_error).

(** *** Reminder trigger *)

Definition reminder_message (user_id title notes : string) (when_ts : Z)
  : string :=
  "Reminder for " ++ display_of user_id ++ ": " ++ title ++ " at "
    ++ strftime E when_ts ++ ". " ++ notes.

Definition trigger_notification (schedule_id : Z) : M unit :=
  t <- gets db ;;
  match Db.select_by_id t schedule_id with
  | None => ret tt
  | Some (user_id, title, notes, when_ts) =>
      dt <- fromtimestamp when_ts ;;
      let msg := reminder_message user_id title notes dt in
      speak msg ;;
      try_except
        (if telegram_bot E
         then telegram_call (EvSendMessage ("[Reminder] " ++ msg))
         else ret tt)
        (fun e => ret tt) ;;
      mark_notified schedule_id
  end.

(** What the scheduler runs when job [j] fires. *)
Definition fire (j : job) : M unit := trigger_notification (job_arg j).

(** The query of [poll_pending_schedules]. *)
Definition list_due_undelivered (now_ts : Z) : M (list Z) :=
  t <- gets db ;;
  ret (Db.select_due t now_ts).

Definition poll_pending_schedules : M unit :=
  now_ts <- time_time ;;
  rows <- list_due_undelivered now_ts ;;
  for_each rows (fun r => scheduler_add_job (mk_job None RunNow r)).

(** *** Conversation session *)

Definition msg_ask_when : string :=
  "When should I remind you? Please say a date and time.".
Definition msg_time_not_understood : string :=
  "I couldn't understand the time.".
Definition msg_no_upcoming : string := "You have no upcoming schedules.".
Definition msg_upcoming_header : string := "Here are your upcoming items:".

Definition msg_scheduled (title : string) (dt : Z) : string :=
  "Okay — scheduled: " ++ title ++ " at " ++ strftime E dt.

(** The [add_schedule] branch of a turn. *)
Definition handle_add_schedule (user_id text : string) : M unit :=
  dt <- extract_datetime_from_text text ;;
  dt <- match dt with
        | None =>
            speak msg_ask_when ;;
            follow <- transcribe_audio_from_mic_demo FollowUpListen ;;
            extract_datetime_from_text follow
        | Some d => ret (Some d)
        end ;;
  match dt with
  | Some d =>
      let title := text in
      sid <- add_schedule user_id title "" d ;;
      scheduler_add_job
        (mk_job (Some ("reminder-" ++ PyStr.str_of_Z sid)) (RunDate d) sid) ;;
      speak (msg_scheduled title d)
  | None => speak msg_time_not_understood
  end.

(** The [show_schedule] branch of a turn. *)
Definition handle_show_schedule (user_id : string) : M unit :=
  rows <- get_user_upcoming user_id default_limit ;;
  match rows with
  | [] => speak msg_no_upcoming
  | _ =>
      speak msg_upcoming_header ;;
      for_each rows
        (fun '(title, notes, when_ts) =>
           dt <- fromtimestamp when_ts ;;
           speak (title ++ " at " ++ strftime E dt))
  end.

(** What one turn does with a non-empty utterance. *)
Definition handle_text (user_id text : string) : M unit :=
  match parse_intent_simple (Some text) with
  | add_schedule_intent => handle_add_schedule user_id text
  | show_schedule_intent => handle_show_schedule user_id
  | chat_intent => speak (reply_with_llm_sim text user_id)
  end.

(** The [while] loop of [conversation_session]; [fuel] bounds the number of
    turns, and the result tells whether the loop was left ([true]) or the
    bound was reached first ([false]). *)
Fixpoint session_loop (fuel : nat) (user_id : string)
    (start_time session_timeout : Z) : M bool :=
  match fuel with
  | O => ret false
  | S fuel' =>
      now <- time_time ;;
      if now - start_time <? session_timeout then
        text <- transcribe_audio_from_mic_demo TurnListen ;;
        if (text =? "")%string then ret true
        else
          handle_text user_id text ;;
          session_loop fuel' user_id start_time session_timeout
      else ret true
  end.

Definition greeting (user_id : string) : string :=
  "Hi " ++ display_of user_id ++ ", nice to see you. How can I help?".

Definition default_session_timeout : Z := 90.

Definition conversation_session (fuel : nat) (user_id : string)
    (session_timeout : Z) : M bool :=
  speak (greeting user_id) ;;
  start_time <- time_time ;;
  session_loop fuel user_id start_time session_timeout.

End Program.

(* ================================================================== *)
(** ** Trace predicates and concrete scenarios *)

(** Every top-of-turn listen started while [now - start_time < timeout]. *)
Definition turn_listen_in_time (start_time timeout : Z) (e : event) : Prop :=
  match e with
  | EvListen TurnListen started _ => started - start_time < timeout
  | _ => True
  end.

(** A top-of-turn listen that returned the empty text is the last event. *)
Fixpoint silence_is_last (tr : list event) : Prop :=
  match tr with
  | [] => True
  | EvListen TurnListen _ "" :: rest => rest = []
  | _ :: rest => silence_is_last rest
  end.

Definition not_turn_listen (e : event) : Prop :=
  match e with
  | EvListen TurnListen _ _ => False
  | _ => True
  end.

(** [add_schedule] stored a record for [user] with the given title, empty
    notes and time [d] under the next id, and a dated job was armed for that
    id. *)
Definition reminder_created (user title : string) (d : Z) (w w' : world)
  : Prop :=
  let sid := Db.seq (db w) + 1 in
  db w'
  = Db.mk_table (Db.rows (db w) ++ [Db.mk_row sid user title "" d 0]) sid /\
  jobs w'
  = (jobs w
       ++ [mk_job (Some ("reminder-" ++ PyStr.str_of_Z sid)%string)
                  (RunDate d) sid])%list.

(** An environment given by the list of utterances the STT hook returns (then
    silence), one duration for every listen and every utterance, a date
    parser, and the state of the Telegram bot.  Timestamps of the years 1 to
    9999 (in UTC) are the ones [datetime.fromtimestamp] accepts. *)
Definition scripted_env (utterances : list string) (listen_time speak_time : Z)
    (parse : string -> option Z) (bot bot_ok : bool) : env :=
  mk_env (fun n => nth n utterances "")
         (fun _ => listen_time)
         (fun _ => speak_time)
         parse
         PyStr.str_of_Z
         (fun ts => (-62135596800 <=? ts) && (ts <=? 253402300799))
         PyStr.str_of_Z
         bot
         (fun _ => bot_ok)
         (fun _ => true).

Definition no_date (s : string) : option Z := None.

(** Recognises exactly "9am tomorrow", as the timestamp 1000. *)
Definition nine_am (s : string) : option Z :=
  if (s =? "9am tomorrow")%string then Some 1000 else None.

Definition world0 : world := mk_world 0 Db.empty [] 0 0 [].

(** A store holding one reminder of alice that was already delivered, and one
    of bob that is still pending, at clock 500. *)
Definition delivered_db : Db.table :=
  Db.mk_table [Db.mk_row 1 "alice" "call mom" "" 100 1;
               Db.mk_row 2 "bob" "take pills" "" 200 0] 2.

Definition delivered_world : world := mk_world 500 delivered_db [] 0 0 [].

(** A store in which alice has four reminders, two of them for the same
    time, stored out of time order, and bob has one; at clock 200. *)
Definition busy_db : Db.table :=
  Db.mk_table [Db.mk_row 1 "alice" "dentist" "" 300 0;
               Db.mk_row 2 "bob" "gym" "" 150 0;
               Db.mk_row 3 "alice" "call mom" "" 100 1;
               Db.mk_row 4 "alice" "pay rent" "" 100 0;
               Db.mk_row 5 "alice" "water plants" "" 50 0] 5.

Definition busy_world : world := mk_world 200 busy_db [] 0 0 [].

(** A store whose only reminder has a time no calendar date stands for. *)
Definition far_db : Db.table :=
  Db.mk_table [Db.mk_row 1 "alice" "far away" "" 1000000000000000000 0] 1.

Definition far_world : world := mk_world 200 far_db [] 0 0 [].

(** The same store with the dated job of bob's pending reminder still armed,
    just before its timer and the sweeper both run. *)
Definition armed_world : world :=
  mk_world 500 delivered_db [mk_job (Some "reminder-2") (RunDate 200) 2]
           0 0 [].

(** Telegram configured and working; configured and failing; not
    configured. *)
Definition bot_up_env : env := scripted_env [] 1 1 no_date true true.
Definition bot_down_env : env := scripted_env [] 1 1 no_date true false.
Definition no_bot_env : env := scripted_env [] 1 1 no_date false false.

(** What the unknown-subject handler says, by the result of the alert: no bot
    configured, upload accepted, upload raised. *)
Definition unknown_face_speech (E : env) (w : world) : string :=
  if negb (telegram_bot E) then msg_owner_not_notified
  else if telegram_ok E (tg_calls w) then msg_owner_notified
  else msg_send_error.

(** What [show_schedule] says for one row of the listing. *)
Definition item_line (E : env) (x : string * string * Z) : string :=
  let '(title, notes, when_ts) := x in title ++ " at " ++ strftime E when_ts.

(** The body of the loop of [show_schedule] for one row. *)
Definition speak_item (E : env) (x : string * string * Z) : M unit :=
  let '(title, notes, when_ts) := x in
  dt <- fromtimestamp E when_ts ;;
  speak E (title ++ " at " ++ strftime E dt).

(** Can the time of a listed row be converted to a date. *)
Definition item_ok (E : env) (x : string * string * Z) : bool :=
  fromtimestamp_ok E (Db.tuple_when x).

(** The rows of a listing up to the first whose time cannot be converted. *)
Fixpoint items_before_error (E : env) (l : list (string * string * Z))
  : list (string * string * Z) :=
  match l with
  | [] => []
  | x :: l' => if item_ok E x then x :: items_before_error E l' else []
  end.

(* ================================================================== *)
(** ** Further notions used in the properties below *)

(** The columns fixed when a row is created. *)
Definition row_core (r : Db.row) : Z * string * string * string * Z :=
  (Db.id r, Db.user_id r, Db.title r, Db.notes r, Db.when_ts r).

(** [r'] is the row [r], perhaps with its delivery flag raised. *)
Definition row_kept (r r' : Db.row) : Prop :=
  row_core r = row_core r' /\
  (Db.notified r' = Db.notified r \/ Db.notified r' = 1).

(** [t'] still holds every row of [t], in place, followed by the rows added
    since; the id counter did not go back. *)
Definition history_kept (t t' : Db.table) : Prop :=
  exists kept added,
    Db.rows t' = (kept ++ added)%list /\
    Forall2 row_kept (Db.rows t) kept /\
    Db.seq t <= Db.seq t'.

(** [r] with [notified = 1]. *)
Definition delivered_row (r : Db.row) : Db.row :=
  Db.mk_row (Db.id r) (Db.user_id r) (Db.title r) (Db.notes r) (Db.when_ts r)
            1.

(** The dated job the session arms for a row it has stored. *)
Definition dated_job (r : Db.row) : job :=
  mk_job (Some ("reminder-" ++ PyStr.str_of_Z (Db.id r))%string)
         (RunDate (Db.when_ts r)) (Db.id r).

(** The explicit ids ([id=...]) of the jobs in the job store. *)
Definition job_ids (js : list job) : list string :=
  flat_map (fun j => match job_id j with Some s => [s] | None => [] end) js.

(** Every job with an explicit id is the dated job of an id the store has
    handed out, and no explicit id occurs twice. *)
Definition jobs_keyed (w : world) : Prop :=
  NoDup (job_ids (jobs w)) /\
  Forall (fun j =>
            match job_id j with
            | Some s => exists sid, s = ("reminder-" ++ PyStr.str_of_Z sid)%string
                                    /\ 0 < sid <= Db.seq (db w)
            | None => True
            end) (jobs w).

(** The reminder the dispatcher speaks for a row. *)
Definition row_message (E : env) (r : Db.row) : string :=
  reminder_message E (Db.user_id r) (Db.title r) (Db.notes r) (Db.when_ts r).

(** The three keywords of the first rule. *)
Definition add_keywords : list string := ["remind me"; "schedule"; "add"].


Definition turn_listens (tr : list event) : list event :=
  filter (fun e => match e with
                   | EvListen TurnListen _ _ => true
                   | _ => false
                   end) tr.

(* ================================================================== *)
(** ** [prepare_dataset.py]

    [process_images] walks the folders of [raw_images], detects the faces of
    every readable image and writes each face, cropped and resized, to
    [processed/<person>/<count>.jpg].  OpenCV is a parameter: what
    [cv2.imread] returns for a file is part of the input, and grey-scale
    conversion, detection and crop-and-resize are functions of the section. *)

Module PrepareDataset.

Definition RAW : string := "raw_images".
Definition PROC : string := "processed".

(** [os.path.join(a, b)] for a relative [b]. *)
Definition path_join (a b : string) : string := a ++ "/" ++ b.

(** One rectangle [(x, y, w, h)] returned by [detectMultiScale]. *)
Record rect : Type := mk_rect { rx : Z; ry : Z; rw : Z; rh : Z }.

Section Images.

Variables image face : Type.
Variable cvtColor : image -> image.               (* COLOR_BGR2GRAY *)
Variable detectMultiScale : image -> list rect.   (* scale 1.3, 5 neighbours *)
Variable crop_resize : image -> rect -> face.     (* resize(gray[y:y+h, x:x+w]) *)

(** An entry of [raw_images]: a folder, given by its files in [os.listdir]
    order with what [cv2.imread] returns for each ([None] when the file cannot
    be read as an image), or something [os.listdir] cannot list. *)
Inductive entry : Type :=
| Folder (files : list (string * option image))
| NotAFolder.

Inductive effect : Type :=
| MakeDirs (path : string)
| ImWrite (path : string) (img : face)
| Print (person : string) (count : nat).

Inductive failure : Type :=
| NotADirectoryError (path : string).

(** The inner [for (x,y,w,h) in faces] loop: [count] is the counter on entry;
    the result is the counter on exit and the writes made. *)
Fixpoint write_faces (output_folder : string) (gray : image)
    (faces : list rect) (count : nat) : nat * list effect :=
  match faces with
  | [] => (count, [])
  | f :: faces' =>
      let count1 := S count in
      let w := ImWrite (path_join output_folder
                          (PyStr.str_of_Z (Z.of_nat count1) ++ ".jpg"))
                       (crop_resize gray f) in
      let (count2, ws) := write_faces output_folder gray faces' count1 in
      (count2, w :: ws)
  end.

(** The [for img_name in os.listdir(input_folder)] loop. *)
Fixpoint process_files (output_folder : string)
    (files : list (string * option image)) (count : nat) : nat * list effect :=
  match files with
  | [] => (count, [])
  | (img_name, img) :: files' =>
      match img with
      | None => process_files output_folder files' count
      | Some img =>
          let gray := cvtColor img in
          let faces := detectMultiScale gray in
          let (count1, ws) := write_faces output_folder gray faces count in
          let (count2, ws') := process_files output_folder files' count1 in
          (count2, (ws ++ ws')%list)
      end
  end.

(** The outer loop: the effects so far, and the exception that ended the run,
    if one did. *)
Fixpoint process_images (raw : list (string * entry))
  : list effect * option failure :=
  match raw with
  | [] => ([], None)
  | (person, e) :: raw' =>
      let input_folder := path_join RAW person in
      let output_folder := path_join PROC person in
      match e with
      | NotAFolder =>
          ([MakeDirs output_folder], Some (NotADirectoryError input_folder))
      | Folder files =>
          let (count, ws) := process_files output_folder files 0 in
          let (rest, err) := process_images raw' in
          ((MakeDirs output_folder :: ws ++ Print person count :: rest)%list,
           err)
      end
  end.

(** The faces of a folder, in the order they are met. *)
Definition faces_of (files : list (string * option image)) : list face :=
  flat_map (fun f => match snd f with
                     | None => []
                     | Some img =>
                         map (crop_resize (cvtColor img))
                             (detectMultiScale (cvtColor img))
                     end) files.

(** Faces written under the numbers [count+1], [count+2], ... *)
Fixpoint numbered (output_folder : string) (count : nat) (fs : list face)
  : list effect :=
  match fs with
  | [] => []
  | f :: fs' =>
      ImWrite (path_join output_folder
                 (PyStr.str_of_Z (Z.of_nat (S count)) ++ ".jpg")) f
      :: numbered output_folder (S count) fs'
  end.

Definition written_paths (es : list effect) : list string :=
  flat_map (fun e => match e with ImWrite p _ => [p] | _ => [] end) es.

End Images.

Arguments Folder {image} files.
Arguments NotAFolder {image}.
Arguments MakeDirs {face} path.
Arguments ImWrite {face} path img.
Arguments Print {face} person count.
Arguments write_faces {image face} crop_resize output_folder gray faces count.
Arguments process_files {image face} cvtColor detectMultiScale crop_resize
  output_folder files count.
Arguments process_images {image face} cvtColor detectMultiScale crop_resize raw.
Arguments faces_of {image face} cvtColor detectMultiScale crop_resize files.
Arguments numbered {face} output_folder count fs.
Arguments written_paths {face} es.

(** A toy OpenCV for concrete runs: an image is the number of faces in it, a
    face is the number of its image. *)
Definition toy_detect (img : nat) : list rect :=
  repeat (mk_rect 0 0 10 10) img.

Definition toy_crop (img : nat) (r : rect) : nat := img.

Definition toy_raw : list (string * entry nat) :=
  [("ann", Folder [("a.jpg", Some 2%nat); ("notes.txt", None);
                   ("b.jpg", Some 1%nat)])].

End PrepareDataset.

(* ================================================================== *)
(** * Properties *)

(** ** Strings *)

Lemma append_assoc (a b c : string) : (a ++ b) ++ c = a ++ (b ++ c).
Proof.
  induction a as [|x a IH]; simpl; [reflexivity|].
  now rewrite IH.
Qed.

Lemma prefix_app (k post : string) : String.prefix k (k ++ post) = true.
Proof.
  induction k as [|x k IH]; simpl.
  - now destruct post.
  - destruct (ascii_dec x x) as [_|ne]; [exact IH | now elim ne].
Qed.

Lemma prefix_inv (k t : string) :
  String.prefix k t = true -> exists post, t = k ++ post.
Proof.
  revert t; induction k as [|x k IH]; intros t H.
  - now exists t.
  - destruct t as [|y t]; simpl in H; [discriminate|].
    destruct (ascii_dec x y) as [->|_]; [|discriminate].
    destruct (IH t H) as [post ->]. now exists post.
Qed.

(** [contains] decides the substring relation. *)
Lemma contains_iff (t k : string) :
  PyStr.contains t k = true <-> substring_of k t.
Proof.
  split.
  - induction t as [|c t IH]; cbn [PyStr.contains]; intros H.
    + rewrite orb_false_r in H.
      destruct (prefix_inv _ _ H) as [post ->]. now exists "", post.
    + apply orb_true_iff in H as [H|H].
      * destruct (prefix_inv _ _ H) as [post Hp]. now exists "", post.
      * destruct (IH H) as (pre & post & ->). now exists (String c pre), post.
  - intros (pre & post & ->).
    induction pre as [|c pre IH].
    + change ("" ++ k ++ post) with (k ++ post).
      destruct (k ++ post) eqn:Hk; cbn [PyStr.contains];
        rewrite <- Hk, prefix_app; reflexivity.
    + change (String c pre ++ k ++ post) with (String c (pre ++ k ++ post)).
      cbn [PyStr.contains]. rewrite IH. apply orb_true_r.
Qed.

Lemma substring_of_trans (a b t : string) :
  substring_of a b -> substring_of b t -> substring_of a t.
Proof.
  intros (p1 & q1 & ->) (p2 & q2 & ->).
  exists (p2 ++ p1), (q1 ++ q2).
  now rewrite !append_assoc.
Qed.

Lemma contains_mono (t a b : string) :
  substring_of a b -> PyStr.contains t b = true -> PyStr.contains t a = true.
Proof.
  intros Hab Hb. apply contains_iff.
  apply substring_of_trans with b; [exact Hab | now apply contains_iff].
Qed.

Lemma lower_ascii_idem (c : ascii) :
  PyStr.lower_ascii (PyStr.lower_ascii c) = PyStr.lower_ascii c.
Proof.
  destruct c as [[] [] [] [] [] [] [] []]; reflexivity.
Qed.

Lemma lower_idem (s : string) : PyStr.lower (PyStr.lower s) = PyStr.lower s.
Proof.
  induction s as [|c s IH]; simpl; [reflexivity|].
  now rewrite lower_ascii_idem, IH.
Qed.

(** ** Intent classification *)

(** The source's chain of [if]s is the ordered rule table read first match
    first. *)
Lemma parse_intent_simple_rules (text : string) :
  parse_intent_simple (Some text) = classify_by_rules text.
Proof.
  unfold parse_intent_simple, classify_by_rules, intent_rules; simpl.
  now rewrite !orb_false_r, !orb_assoc.
Qed.

(** C3: for every text the classifier is the first-match-wins,
    case-insensitive substring test over the ordered rules: a lower-cased text
    containing "remind me", "schedule" or "add" is [add_schedule]; otherwise
    one containing "show schedule", "what's my schedule" or "my schedule" is
    [show_schedule]; otherwise the result is [chat]. *)
Theorem parse_intent_simple_first_match (text : string) :
  let t := PyStr.lower text in
  let rule1 := substring_of "remind me" t \/ substring_of "schedule" t
               \/ substring_of "add" t in
  let rule2 := substring_of "show schedule" t
               \/ substring_of "what's my schedule" t
               \/ substring_of "my schedule" t in
  parse_intent_simple (Some text) = classify_by_rules text /\
  (rule1 /\ parse_intent_simple (Some text) = add_schedule_intent
   \/ ~ rule1 /\ rule2
      /\ parse_intent_simple (Some text) = show_schedule_intent
   \/ ~ rule1 /\ ~ rule2 /\ parse_intent_simple (Some text) = chat_intent).
Proof.
  cbv zeta. split; [apply parse_intent_simple_rules|].
  unfold parse_intent_simple; simpl PyStr.or_empty.
  set (t := PyStr.lower text).
  destruct (PyStr.contains t "remind me") eqn:H1;
    [left; split; [left; now apply contains_iff | reflexivity]|].
  destruct (PyStr.contains t "schedule") eqn:H2;
    [left; split; [right; left; now apply contains_iff | reflexivity]|].
  destruct (PyStr.contains t "add") eqn:H3;
    [left; split; [right; right; now apply contains_iff | reflexivity]|].
  assert (N1 : ~ (substring_of "remind me" t \/ substring_of "schedule" t
                  \/ substring_of "add" t)).
  { intros [H|[H|H]]; apply contains_iff in H; congruence. }
  simpl orb. right.
  destruct (PyStr.contains t "show schedule") eqn:H4;
    [left; repeat split; [exact N1 | left; now apply contains_iff]|].
  destruct (PyStr.contains t "what's my schedule") eqn:H5;
    [left; repeat split; [exact N1 | right; left; now apply contains_iff]|].
  destruct (PyStr.contains t "my schedule") eqn:H6;
    [left; repeat split; [exact N1 | right; right; now apply contains_iff]|].
  right. repeat split; [exact N1|].
  intros [H|[H|H]]; apply contains_iff in H; congruence.
Qed.

(** Every keyword of the second rule contains the keyword "schedule" of the
    first, so the classifier never answers [show_schedule]. *)
Lemma show_schedule_unreachable (text : option string) :
  parse_intent_simple text <> show_schedule_intent.
Proof.
  unfold parse_intent_simple.
  set (t := PyStr.lower (PyStr.or_empty text)).
  destruct (PyStr.contains t "schedule") eqn:Hs.
  - rewrite orb_true_r. simpl. discriminate.
  - assert (Hk : forall k, substring_of "schedule" k ->
                           PyStr.contains t k = false).
    { intros k Hk. destruct (PyStr.contains t k) eqn:Hc; [|reflexivity].
      rewrite (contains_mono t _ _ Hk Hc) in Hs. discriminate. }
    rewrite (Hk "show schedule"), (Hk "what's my schedule"),
      (Hk "my schedule").
    + destruct (_ || _ || _); discriminate.
    + now exists "my ", "".
    + now exists "what's my ", "".
    + now exists "show ", "".
Qed.

(** C2: what the classifier answers on the three sample utterances.  The
    first and the third are classified as documented; "what's my schedule"
    contains "schedule" and is taken by the first rule. *)
Theorem parse_intent_simple_samples :
  parse_intent_simple (Some "remind me to call mom tomorrow 5pm")
    = add_schedule_intent /\
  parse_intent_simple (Some "what's my schedule") = add_schedule_intent /\
  parse_intent_simple (Some "how are you") = chat_intent.
Proof. repeat split; reflexivity. Qed.

(** C10: [None] and the empty string are classified as [chat]; the function
    is total, so no call raises. *)
Theorem parse_intent_simple_none_empty :
  parse_intent_simple None = chat_intent /\
  parse_intent_simple (Some "") = chat_intent /\
  PyStr.lower (PyStr.or_empty None) = "".
Proof. repeat split; reflexivity. Qed.

(* ================================================================== *)
(** ** The schedule store *)

Module DbFacts.
Import Db.

Lemma select_due_iff (t : table) (now_ts i : Z) :
  In i (select_due t now_ts) <->
  exists r, In r (rows t) /\ id r = i /\ when_ts r <= now_ts /\ notified r = 0.
Proof.
  unfold select_due. rewrite in_map_iff. split.
  - intros (r & <- & Hr). apply filter_In in Hr as [Hin Hc].
    apply andb_true_iff in Hc as [Hw Hn].
    exists r. repeat split; [assumption | lia | lia].
  - intros (r & Hin & <- & Hw & Hn). exists r. split; [reflexivity|].
    apply filter_In. split; [assumption|].
    apply andb_true_iff. split; lia.
Qed.

Lemma insert_due (t : table) (u ti n : string) (w now_ts : Z) :
  w <= now_ts -> In (snd (insert t u ti n w)) (select_due (fst (insert t u ti n w)) now_ts).
Proof.
  intros Hw. apply select_due_iff. simpl.
  exists (mk_row (seq t + 1) u ti n w 0). repeat split; simpl; try lia.
  apply in_or_app. right. now left.
Qed.

Lemma set_notified_id (sid : Z) (r : row) : id (set_notified sid r) = id r.
Proof. unfold set_notified. now destruct (id r =? sid). Qed.

Lemma set_notified_idem (sid : Z) (r : row) :
  set_notified sid (set_notified sid r) = set_notified sid r.
Proof.
  unfold set_notified. destruct (id r =? sid) eqn:H; simpl; now rewrite H.
Qed.

Lemma update_notified_idem (t : table) (sid : Z) :
  update_notified (update_notified t sid) sid = update_notified t sid.
Proof.
  unfold update_notified; simpl. f_equal.
  rewrite map_map. apply map_ext. intros r. apply set_notified_idem.
Qed.

Lemma update_notified_not_due (t : table) (sid now_ts : Z) :
  ~ In sid (select_due (update_notified t sid) now_ts).
Proof.
  rewrite select_due_iff. intros (r & Hin & Hid & _ & Hn).
  simpl in Hin. apply in_map_iff in Hin as (r0 & <- & _).
  rewrite set_notified_id in Hid.
  unfold set_notified in Hn. rewrite (proj2 (Z.eqb_eq _ _) Hid) in Hn.
  discriminate.
Qed.

(** Marking a record never makes another record due. *)
Lemma update_notified_due_subset (t : table) (sid now_ts i : Z) :
  In i (select_due (update_notified t sid) now_ts) -> In i (select_due t now_ts).
Proof.
  rewrite !select_due_iff. intros (r & Hin & Hid & Hw & Hn).
  simpl in Hin. apply in_map_iff in Hin as (r0 & <- & Hin0).
  unfold set_notified in *. destruct (id r0 =? sid); simpl in *.
  - discriminate.
  - now exists r0.
Qed.

(** *** The primary-key invariant *)

Lemma well_formed_empty : well_formed empty.
Proof. repeat split; [constructor | reflexivity | constructor]. Qed.

Lemma well_formed_insert (t : table) (u ti n : string) (w : Z) :
  well_formed t -> well_formed (fst (insert t u ti n w)).
Proof.
  intros (Hnd & Hseq & Hall). repeat split; simpl; [|lia|].
  - rewrite map_app; simpl.
    apply NoDup_app; [exact Hnd | repeat constructor; intros [] | ].
    intros x Hx [<-|[]].
    apply in_map_iff in Hx as (r & Hr & Hin).
    rewrite Forall_forall in Hall. specialize (Hall r Hin). lia.
  - apply Forall_app. split.
    + eapply Forall_impl; [|exact Hall]. simpl. intros; lia.
    + repeat constructor; simpl; lia.
Qed.

Lemma well_formed_update_notified (t : table) (sid : Z) :
  well_formed t -> well_formed (update_notified t sid).
Proof.
  intros (Hnd & Hseq & Hall). repeat split; simpl; [|exact Hseq|].
  - rewrite map_map.
    rewrite (map_ext _ id (set_notified_id sid)). exact Hnd.
  - apply Forall_map. eapply Forall_impl; [|exact Hall].
    intros r. now rewrite set_notified_id.
Qed.

(** The id handed out by [insert] is not the id of an older row. *)
Lemma insert_fresh (t : table) (u ti n : string) (w : Z) :
  well_formed t -> lookup t (snd (insert t u ti n w)) = None.
Proof.
  intros (_ & _ & Hall). unfold lookup; simpl.
  destruct (find _ _) as [r|] eqn:Hf; [|reflexivity].
  apply find_some in Hf as [Hin Heq].
  rewrite Forall_forall in Hall. specialize (Hall r Hin). lia.
Qed.

Lemma lookup_unique (t : table) (sid : Z) (r r' : row) :
  well_formed t -> lookup t sid = Some r -> In r' (rows t) -> id r' = sid ->
  r' = r.
Proof.
  intros (Hnd & _ & _) Hl Hin <-. revert Hnd Hl Hin. unfold lookup.
  induction (rows t) as [|x l IH]; simpl; [discriminate|].
  intros Hnd. inversion Hnd as [|? ? Hx Hl]; subst.
  destruct (id x =? id r') eqn:Hid.
  - intros [= ->] [->|Hin]; [reflexivity|].
    exfalso. apply Hx. apply Z.eqb_eq in Hid. rewrite Hid.
    now apply in_map.
  - intros Hf [->|Hin]; [rewrite Z.eqb_refl in Hid; discriminate|].
    now apply IH.
Qed.

(** Marking a record that is already marked changes nothing. *)
Lemma update_notified_delivered (t : table) (sid : Z) (r : row) :
  well_formed t -> lookup t sid = Some r -> notified r = 1 ->
  update_notified t sid = t.
Proof.
  intros Hwf Hl Hn. destruct t as [rs s]. unfold update_notified; simpl.
  f_equal. rewrite <- (map_id rs) at 2. apply map_ext_in.
  intros x Hx. unfold set_notified.
  destruct (id x =? sid) eqn:Hid; [|reflexivity].
  apply Z.eqb_eq in Hid.
  rewrite (lookup_unique _ _ _ _ Hwf Hl Hx Hid) in *.
  destruct r; simpl in *. now subst.
Qed.

(** *** ORDER BY and LIMIT *)

Lemma insert_by_when_In (r x : row) (l : list row) :
  In x (insert_by_when r l) <-> x = r \/ In x l.
Proof.
  induction l as [|y l IH]; simpl.
  - intuition congruence.
  - destruct (when_ts r <=? when_ts y); simpl; rewrite ?IH; intuition congruence.
Qed.

Lemma order_by_when_ts_In (x : row) (l : list row) :
  In x (order_by_when_ts l) <-> In x l.
Proof.
  induction l as [|y l IH]; simpl; [reflexivity|].
  rewrite insert_by_when_In, IH. intuition congruence.
Qed.

Lemma insert_by_when_length (r : row) (l : list row) :
  List.length (insert_by_when r l) = S (List.length l).
Proof.
  induction l as [|y l IH]; simpl; [reflexivity|].
  destruct (when_ts r <=? when_ts y); simpl; [reflexivity | now rewrite IH].
Qed.

Lemma order_by_when_ts_length (l : list row) :
  List.length (order_by_when_ts l) = List.length l.
Proof.
  induction l as [|y l IH]; simpl; [reflexivity|].
  now rewrite insert_by_when_length, IH.
Qed.

Lemma insert_by_when_sorted (r : row) (l : list row) :
  StronglySorted by_when l -> StronglySorted by_when (insert_by_when r l).
Proof.
  induction 1 as [|y l Hs IH Hall]; simpl.
  - repeat constructor.
  - destruct (when_ts r <=? when_ts y) eqn:Hlt.
    + constructor; [now constructor|].
      constructor; [unfold by_when; lia|].
      eapply Forall_impl; [|exact Hall]. unfold by_when. intros; lia.
    + constructor; [exact IH|].
      apply Forall_forall. intros x Hx.
      apply insert_by_when_In in Hx as [->|Hx].
      * unfold by_when; lia.
      * rewrite Forall_forall in Hall. now apply Hall.
Qed.

Lemma order_by_when_ts_sorted (l : list row) :
  StronglySorted by_when (order_by_when_ts l).
Proof.
  induction l as [|y l IH]; simpl; [constructor|].
  now apply insert_by_when_sorted.
Qed.

Lemma firstn_In {A : Type} (n : nat) (l : list A) (x : A) :
  In x (firstn n l) -> In x l.
Proof.
  revert l; induction n as [|n IH]; intros [|y l]; simpl; try tauto.
  intros [->|H]; [now left | right; now apply IH].
Qed.

Lemma firstn_sorted {A : Type} (R : A -> A -> Prop) (n : nat) (l : list A) :
  StronglySorted R l -> StronglySorted R (firstn n l).
Proof.
  revert l; induction n as [|n IH]; intros l Hs; simpl; [constructor|].
  destruct l as [|x l]; [constructor|].
  inversion Hs as [|? ? Hs' Hall]; subst.
  constructor; [now apply IH|].
  apply Forall_forall. intros y Hy. rewrite Forall_forall in Hall.
  apply Hall. eapply firstn_In; eassumption.
Qed.

Lemma limit_rows_sorted {A : Type} (R : A -> A -> Prop) (n : Z) (l : list A) :
  StronglySorted R l -> StronglySorted R (limit_rows n l).
Proof.
  intros Hs. unfold limit_rows. destruct (n <? 0); [exact Hs|].
  now apply firstn_sorted.
Qed.

Lemma limit_rows_In {A : Type} (n : Z) (l : list A) (x : A) :
  In x (limit_rows n l) -> In x l.
Proof.
  unfold limit_rows. destruct (n <? 0); [trivial|]. apply firstn_In.
Qed.

Lemma limit_rows_length {A : Type} (n : Z) (l : list A) :
  0 <= n -> Z.of_nat (List.length (limit_rows n l)) <= n.
Proof.
  intros Hn. unfold limit_rows.
  destruct (n <? 0) eqn:H; [lia|].
  rewrite List.length_firstn. lia.
Qed.

(** With room for all of them, every matching row is returned. *)
Lemma limit_rows_all {A : Type} (n : Z) (l : list A) :
  Z.of_nat (List.length l) <= n \/ n < 0 -> limit_rows n l = l.
Proof.
  intros Hn. unfold limit_rows.
  destruct (n <? 0) eqn:H; [reflexivity|].
  apply firstn_all2. lia.
Qed.

Lemma map_sorted (l : list row) :
  StronglySorted by_when l ->
  StronglySorted tuples_by_when (map tuple_of l).
Proof.
  induction 1 as [|y l Hs IH Hall]; simpl; constructor; [exact IH|].
  apply Forall_map. exact Hall.
Qed.

End DbFacts.

(* ================================================================== *)
(** ** Running the database functions *)

Lemma add_schedule_run (u ti n : string) (wts : Z) (w : world) :
  add_schedule u ti n wts w
  = (Ok (snd (Db.insert (db w) u ti n wts)),
     set_db (fst (Db.insert (db w) u ti n wts)) w).
Proof. reflexivity. Qed.

Lemma mark_notified_run (sid : Z) (w : world) :
  mark_notified sid w = (Ok tt, set_db (Db.update_notified (db w) sid) w).
Proof. reflexivity. Qed.

Lemma list_due_undelivered_run (now_ts : Z) (w : world) :
  list_due_undelivered now_ts w = (Ok (Db.select_due (db w) now_ts), w).
Proof. reflexivity. Qed.

Lemma get_user_upcoming_run (u : string) (lim : Z) (w : world) :
  get_user_upcoming u lim w = (Ok (Db.select_upcoming (db w) u lim), w).
Proof. reflexivity. Qed.

Lemma times_mark_notified_run (k : nat) (sid : Z) (w : world) :
  times (S k) (mark_notified sid) w
  = (Ok tt, set_db (Db.update_notified (db w) sid) w).
Proof.
  revert w; induction k as [|k IH]; intros w; [reflexivity|].
  change (times (S (S k)) (mark_notified sid))
    with (mark_notified sid ;; times (S k) (mark_notified sid)).
  unfold bind. rewrite mark_notified_run, IH.
  unfold set_db; simpl. now rewrite DbFacts.update_notified_idem.
Qed.

(** C5: a record created with [when_ts <= now_ts] is returned by
    [list_due_undelivered] at [when_ts] and at [now_ts]; after one or more
    [mark_notified] calls on its id it is no longer returned; and in every
    world the query returns exactly the ids of the rows with
    [when_ts <= now_ts] and [notified = 0]. *)
Theorem add_schedule_due_until_marked
    (w : world) (u ti n : string) (wts now_ts : Z) (k : nat) :
  wts <= now_ts ->
  exists sid,
    eval (add_schedule u ti n wts) w = Some sid /\
    let w1 := exec (add_schedule u ti n wts) w in
    let w2 := exec (times (S k) (mark_notified sid)) w1 in
    (exists due, eval (list_due_undelivered wts) w1 = Some due /\ In sid due) /\
    (exists due, eval (list_due_undelivered now_ts) w1 = Some due
                 /\ In sid due) /\
    (exists due, eval (list_due_undelivered now_ts) w2 = Some due
                 /\ ~ In sid due) /\
    (forall (w' : world) (t : Z),
        exists due, eval (list_due_undelivered t) w' = Some due /\
          forall i, In i due <->
            exists r, In r (Db.rows (db w')) /\ Db.id r = i
                      /\ Db.when_ts r <= t /\ Db.notified r = 0).
Proof.
  intros Hle.
  exists (snd (Db.insert (db w) u ti n wts)).
  split; [reflexivity|]. cbv zeta.
  repeat split.
  - eexists; split; [reflexivity|].
    apply (DbFacts.insert_due (db w) u ti n wts wts). lia.
  - eexists; split; [reflexivity|].
    now apply (DbFacts.insert_due (db w) u ti n wts now_ts).
  - eexists; split; [reflexivity|].
    unfold exec at 1. rewrite times_mark_notified_run. simpl.
    apply DbFacts.update_notified_not_due.
  - intros w' t. eexists; split; [reflexivity|].
    intros i. apply DbFacts.select_due_iff.
Qed.

Lemma add_schedule_due_until_marked_witness :
  exists sid,
    eval (add_schedule "alice" "call mom" "" 100) world0 = Some sid /\
    let w1 := exec (add_schedule "alice" "call mom" "" 100) world0 in
    let w2 := exec (times 3 (mark_notified sid)) w1 in
    (exists due, eval (list_due_undelivered 100) w1 = Some due /\ In sid due) /\
    (exists due, eval (list_due_undelivered 150) w1 = Some due /\ In sid due) /\
    (exists due, eval (list_due_undelivered 150) w2 = Some due
                 /\ ~ In sid due) /\
    (forall (w' : world) (t : Z),
        exists due, eval (list_due_undelivered t) w' = Some due /\
          forall i, In i due <->
            exists r, In r (Db.rows (db w')) /\ Db.id r = i
                      /\ Db.when_ts r <= t /\ Db.notified r = 0).
Proof.
  apply (add_schedule_due_until_marked world0 "alice" "call mom" "" 100 150 2).
  lia.
Defined.

Lemma for_each_add_job (l : list Z) (w : world) :
  for_each l (fun r => scheduler_add_job (mk_job None RunNow r)) w
  = (Ok tt,
     mk_world (clock w) (db w) (jobs w ++ map (mk_job None RunNow) l)
              (listens w) (tg_calls w) (trace w)).
Proof.
  revert w; induction l as [|x l IH]; intros w.
  - destruct w; simpl. now rewrite app_nil_r.
  - cbn [for_each]. unfold bind.
    change (scheduler_add_job (mk_job None RunNow x) w)
      with (Ok tt, push_job (mk_job None RunNow x) w).
    cbv beta iota. rewrite IH. simpl. now rewrite <- app_assoc.
Qed.

(** The sweeper queues an immediate job for exactly the due, undelivered
    ids, and does nothing else. *)
Lemma poll_pending_schedules_run (w : world) :
  poll_pending_schedules w
  = (Ok tt,
     mk_world (clock w) (db w)
              (jobs w ++ map (mk_job None RunNow)
                             (Db.select_due (db w) (clock w)))
              (listens w) (tg_calls w) (trace w)).
Proof.
  unfold poll_pending_schedules, bind.
  change (time_time w) with (Ok (clock w), w). cbv iota beta.
  rewrite list_due_undelivered_run. apply for_each_add_job.
Qed.

(** C8: [mark_notified] is idempotent.  Two calls in a row return normally
    and leave the same world as one call, and a call on a world in which the
    id was already marked returns normally and changes nothing. *)
Theorem mark_notified_idempotent (w : world) (sid : Z) :
  (mark_notified sid ;; mark_notified sid) w = mark_notified sid w /\
  mark_notified sid (exec (mark_notified sid) w)
  = (Ok tt, exec (mark_notified sid) w).
Proof.
  assert (H : mark_notified sid (exec (mark_notified sid) w)
              = (Ok tt, exec (mark_notified sid) w)).
  { rewrite mark_notified_run. unfold exec. rewrite mark_notified_run; simpl.
    unfold set_db; simpl. now rewrite DbFacts.update_notified_idem. }
  split; [|exact H].
  unfold bind at 1. rewrite mark_notified_run at 1.
  rewrite mark_notified_run. unfold exec in H.
  rewrite mark_notified_run in H. exact H.
Qed.

(* ================================================================== *)
(** ** Traces *)

Lemma spoken_app (a b : list event) :
  spoken (a ++ b) = (spoken a ++ spoken b)%list.
Proof. apply flat_map_app. Qed.

Lemma alert_events_app (a b : list event) :
  alert_events (a ++ b) = (alert_events a ++ alert_events b)%list.
Proof. apply filter_app. Qed.

Lemma speak_run (E : env) (m : string) (w : world) :
  speak E m w = (Ok tt, advance (speak_secs E m) (emit (EvSpeak m) w)).
Proof. reflexivity. Qed.

Lemma for_each_speak (E : env) {A : Type} (f : A -> string) (l : list A)
    (w : world) :
  fst (for_each l (fun x => speak E (f x)) w) = Ok tt /\
  trace (exec (for_each l (fun x => speak E (f x))) w)
  = (trace w ++ map (fun x => EvSpeak (f x)) l)%list /\
  db (exec (for_each l (fun x => speak E (f x))) w) = db w /\
  jobs (exec (for_each l (fun x => speak E (f x))) w) = jobs w.
Proof.
  revert w; induction l as [|x l IH]; intros w.
  - simpl. now rewrite app_nil_r.
  - cbn [for_each]. unfold exec, bind. rewrite speak_run. cbv beta iota.
    destruct (IH (advance (speak_secs E (f x)) (emit (EvSpeak (f x)) w)))
      as (H1 & H2 & H3 & H4).
    unfold exec in *. rewrite H1, H2, H3, H4. simpl.
    now rewrite <- app_assoc.
Qed.

(* ================================================================== *)
(** ** The notification dispatcher *)

Lemma trigger_notification_run (E : env) (sid : Z) (w : world) :
  trigger_notification E sid w
  = match Db.lookup (db w) sid with
    | None => (Ok tt, w)
    | Some r =>
        if fromtimestamp_ok E (Db.when_ts r) then
          let msg := reminder_message E (Db.user_id r) (Db.title r)
                       (Db.notes r) (Db.when_ts r) in
          (Ok tt,
           mk_world (clock w + speak_secs E msg)
                    (Db.update_notified (db w) sid)
                    (jobs w) (listens w)
                    (if telegram_bot E then S (tg_calls w) else tg_calls w)
                    (trace w ++ EvSpeak msg ::
                       (if telegram_bot E
                        then [EvSendMessage ("[Reminder] " ++ msg)
                                (telegram_ok E (tg_calls w))]
                        else [])))
        else (Raise TimestampError, w)
    end.
Proof.
  unfold trigger_notification, Db.select_by_id, fromtimestamp, speak,
    telegram_call, mark_notified.
  run_m.
  destruct (Db.lookup (db w) sid) as [r|]; [|reflexivity].
  destruct (fromtimestamp_ok E (Db.when_ts r)); run_m; [|reflexivity].
  destruct (telegram_bot E); run_m; [|reflexivity].
  destruct (telegram_ok E (tg_calls w)); run_m;
    now rewrite <- app_assoc.
Qed.

(** With no record under the id, the dispatcher does nothing. *)
Lemma trigger_notification_absent (E : env) (sid : Z) (w : world) :
  Db.lookup (db w) sid = None -> trigger_notification E sid w = (Ok tt, w).
Proof. intros H. now rewrite trigger_notification_run, H. Qed.

Lemma dispatch_delivered_once
    (E : env) (w : world) (sid : Z) (r : Db.row) :
  Db.well_formed (db w) ->
  Db.lookup (db w) sid = Some r ->
  Db.notified r = 1 ->
  fromtimestamp_ok E (Db.when_ts r) = true ->
  let msg := reminder_message E (Db.user_id r) (Db.title r) (Db.notes r)
               (Db.when_ts r) in
  let w' := exec (trigger_notification E sid) w in
  fst (trigger_notification E sid w) = Ok tt /\
  db w' = db w /\
  jobs w' = jobs w /\
  spoken (trace w') = (spoken (trace w) ++ [msg])%list /\
  alert_events (trace w')
  = (alert_events (trace w)
       ++ (if telegram_bot E
           then [EvSendMessage ("[Reminder] " ++ msg)
                   (telegram_ok E (tg_calls w))]
           else []))%list.
Proof.
  intros Hwf Hl Hn Hok. cbv zeta. unfold exec.
  rewrite trigger_notification_run, Hl, Hok. cbv zeta. simpl.
  repeat split.
  - now apply DbFacts.update_notified_delivered with r.
  - rewrite spoken_app. simpl. now destruct (telegram_bot E).
  - rewrite alert_events_app. simpl. now destruct (telegram_bot E).
Qed.

(** C1 (as the code has it): for a record that is already delivered and
    whose time [datetime.fromtimestamp] converts -- as it did when the record
    was delivered -- the dispatcher returns normally and leaves the store and
    the job list as they are, but it still speaks the reminder and, with a
    Telegram bot configured, still attempts the external alert -- once in each
    call, so twice when the id is handed to it twice.  On a record whose time
    cannot be converted the call raises before anything is spoken and changes
    nothing. *)
Theorem trigger_notification_delivered
    (E : env) (w : world) (sid : Z) (r : Db.row) :
  Db.well_formed (db w) ->
  Db.lookup (db w) sid = Some r ->
  Db.notified r = 1 ->
  let msg := reminder_message E (Db.user_id r) (Db.title r) (Db.notes r)
               (Db.when_ts r) in
  let w' := exec (trigger_notification E sid) w in
  let w'' := exec (trigger_notification E sid ;; trigger_notification E sid) w in
  if fromtimestamp_ok E (Db.when_ts r) then
    fst (trigger_notification E sid w) = Ok tt /\
    db w' = db w /\
    jobs w' = jobs w /\
    spoken (trace w') = (spoken (trace w) ++ [msg])%list /\
    alert_events (trace w')
    = (alert_events (trace w)
         ++ (if telegram_bot E
             then [EvSendMessage ("[Reminder] " ++ msg)
                     (telegram_ok E (tg_calls w))]
             else []))%list /\
    db w'' = db w /\
    spoken (trace w'') = (spoken (trace w) ++ [msg; msg])%list
  else trigger_notification E sid w = (Raise TimestampError, w).
Proof.
  intros Hwf Hl Hn. cbv zeta.
  destruct (fromtimestamp_ok E (Db.when_ts r)) eqn:Hok.
  2:{ now rewrite trigger_notification_run, Hl, Hok. }
  destruct (dispatch_delivered_once E w sid r Hwf Hl Hn Hok)
    as (H1 & H2 & H3 & H4 & H5).
  repeat (split; [assumption|]).
  unfold exec, bind.
  destruct (trigger_notification E sid w) as [[[]|e] w1] eqn:Hrun;
    cbn [fst] in H1; [|discriminate].
  unfold exec in H2, H4. rewrite Hrun in H2, H4. cbn [snd] in H2, H4.
  assert (Hwf1 : Db.well_formed (db w1)) by now rewrite H2.
  assert (Hl1 : Db.lookup (db w1) sid = Some r) by now rewrite H2.
  destruct (dispatch_delivered_once E w1 sid r Hwf1 Hl1 Hn Hok)
    as (_ & G2 & _ & G4 & _).
  unfold exec in G2, G4. split.
  - now rewrite G2.
  - rewrite G4, H4, <- app_assoc. reflexivity.
Qed.

Lemma trigger_notification_delivered_witness :
  let msg := "Reminder for Alice: call mom at 100. " in
  let w' := exec (trigger_notification bot_up_env 1) delivered_world in
  let w'' := exec (trigger_notification bot_up_env 1 ;;
                   trigger_notification bot_up_env 1) delivered_world in
  fst (trigger_notification bot_up_env 1 delivered_world) = Ok tt /\
  db w' = db delivered_world /\
  jobs w' = jobs delivered_world /\
  spoken (trace w') = (spoken (trace delivered_world) ++ [msg])%list /\
  alert_events (trace w')
  = (alert_events (trace delivered_world)
       ++ [EvSendMessage ("[Reminder] " ++ msg) true])%list /\
  db w'' = db delivered_world /\
  spoken (trace w'') = (spoken (trace delivered_world) ++ [msg; msg])%list.
Proof.
  apply (trigger_notification_delivered bot_up_env delivered_world 1
           (Db.mk_row 1 "alice" "call mom" "" 100 1)).
  - repeat split; simpl; [|lia|].
    + repeat constructor; simpl; intuition discriminate.
    + repeat constructor; simpl; lia.
  - reflexivity.
  - reflexivity.
Defined.

(** C1 (as stated) fails: record 1 of [delivered_world] is delivered, yet the
    dispatcher speaks its reminder and sends the Telegram message; and the
    pending record 2, handed to the dispatcher twice, is spoken and sent
    twice. *)
Lemma trigger_notification_delivered_not_noop :
  option_map Db.notified (Db.lookup (db delivered_world) 1) = Some 1 /\
  exec (trigger_notification bot_up_env 1) delivered_world <> delivered_world /\
  spoken (trace (exec (trigger_notification bot_up_env 1) delivered_world))
  = ["Reminder for Alice: call mom at 100. "] /\
  alert_events (trace (exec (trigger_notification bot_up_env 1) delivered_world))
  = [EvSendMessage "[Reminder] Reminder for Alice: call mom at 100. " true] /\
  spoken (trace (exec (trigger_notification bot_up_env 2 ;;
                       trigger_notification bot_up_env 2) delivered_world))
  = ["Reminder for Bob: take pills at 200. ";
     "Reminder for Bob: take pills at 200. "] /\
  alert_events (trace (exec (trigger_notification bot_up_env 2 ;;
                             trigger_notification bot_up_env 2)
                         delivered_world))
  = [EvSendMessage "[Reminder] Reminder for Bob: take pills at 200. " true;
     EvSendMessage "[Reminder] Reminder for Bob: take pills at 200. " true].
Proof.
  repeat split; try reflexivity.
  intros H. apply (f_equal trace) in H. vm_compute in H. discriminate.
Qed.

(** The double hand-over is reachable: bob's reminder is due and pending,
    its dated job is armed; the sweeper queues a second job for the same id,
    and firing both jobs speaks the reminder twice. *)
Lemma sweeper_requeues_armed_record :
  jobs (exec poll_pending_schedules armed_world)
  = [mk_job (Some "reminder-2") (RunDate 200) 2; mk_job None RunNow 2] /\
  spoken (trace (exec (poll_pending_schedules ;;
                       fire bot_up_env (mk_job (Some "reminder-2")
                                          (RunDate 200) 2) ;;
                       fire bot_up_env (mk_job None RunNow 2))
                   armed_world))
  = ["Reminder for Bob: take pills at 200. ";
     "Reminder for Bob: take pills at 200. "].
Proof. split; reflexivity. Qed.

(** A record whose time is beyond every calendar date: the dispatcher raises
    before speaking, and the record stays pending. *)
Lemma trigger_notification_far_future :
  trigger_notification bot_up_env 1 far_world = (Raise TimestampError, far_world)
  /\ Db.select_due (db far_world) 1000000000000000000 = [1].
Proof. split; reflexivity. Qed.

(* ================================================================== *)
(** ** The unknown-subject handler *)

(** [send_photo_to_owner] answers [False] without a bot, [True] after a
    successful upload, and lets the upload's exception through. *)
Lemma send_photo_to_owner_run
    (E : env) (photo : list Byte.byte) (caption : string) (w : world) :
  send_photo_to_owner E photo caption w
  = if negb (telegram_bot E) then (Ok false, w)
    else
      let w' := emit (EvSendPhoto photo caption (telegram_ok E (tg_calls w)))
                  (count_tg_call w) in
      if telegram_ok E (tg_calls w) then (Ok true, w')
      else (Raise TelegramError, w').
Proof.
  unfold send_photo_to_owner, telegram_call.
  destruct (telegram_bot E); [|reflexivity].
  cbv beta iota zeta delta [bind ret raise modify gets negb].
  cbn [tg_calls count_tg_call emit].
  now destruct (telegram_ok E (tg_calls w)).
Qed.

(** C9 (as the code has it): once the snapshot is saved, the handler returns
    normally whatever the alert does -- an exception raised by the upload is
    caught and not propagated -- and it speaks exactly one of three fixed
    sentences: the owner was notified (upload accepted), the owner could not
    be notified (no bot configured), or sending failed with an error (upload
    raised). *)
Theorem on_unknown_face_outcome
    (E : env) (photo : list Byte.byte) (w : world) :
  file_write_ok E (unknown_face_filename (clock w)) = true ->
  fst (on_unknown_face E photo w) = Ok tt /\
  spoken (trace (exec (on_unknown_face E photo) w))
  = (spoken (trace w) ++ [unknown_face_speech E w])%list /\
  (unknown_face_speech E w = msg_owner_notified
   \/ unknown_face_speech E w = msg_owner_not_notified
   \/ unknown_face_speech E w = msg_send_error) /\
  db (exec (on_unknown_face E photo) w) = db w.
Proof.
  intros Hf.
  unfold on_unknown_face, save_file, unknown_face_speech, exec.
  cbv beta iota zeta delta [bind try_except time_time gets modify].
  cbn [clock emit]. rewrite Hf. cbv beta iota delta [ret].
  rewrite send_photo_to_owner_run.
  destruct (telegram_bot E); cbn [negb]; cbv beta iota zeta.
  - destruct (telegram_ok E (tg_calls w)) eqn:Hok; cbn [tg_calls emit];
      rewrite ?Hok; rewrite speak_run; cbn [fst snd trace advance emit
        count_tg_call db];
      rewrite !spoken_app; cbn [spoken flat_map app];
      rewrite ?app_nil_r; repeat split; auto.
  - rewrite speak_run; cbn [fst snd trace advance emit db];
      rewrite !spoken_app; cbn [spoken flat_map app];
      rewrite ?app_nil_r; repeat split; auto.
Qed.

Lemma on_unknown_face_outcome_witness :
  fst (on_unknown_face bot_down_env [] delivered_world) = Ok tt /\
  spoken (trace (exec (on_unknown_face bot_down_env []) delivered_world))
  = (spoken (trace delivered_world)
       ++ [unknown_face_speech bot_down_env delivered_world])%list /\
  (unknown_face_speech bot_down_env delivered_world = msg_owner_notified
   \/ unknown_face_speech bot_down_env delivered_world = msg_owner_not_notified
   \/ unknown_face_speech bot_down_env delivered_world = msg_send_error) /\
  db (exec (on_unknown_face bot_down_env []) delivered_world)
  = db delivered_world.
Proof.
  apply (on_unknown_face_outcome bot_down_env [] delivered_world).
  reflexivity.
Defined.

(** C9 (as stated) fails on the number of outcomes: when the upload raises,
    the handler speaks a third sentence, which is neither the "notified" nor
    the "couldn't notify" outcome spoken on the two results of the alert. *)
Lemma on_unknown_face_third_outcome :
  spoken (trace (exec (on_unknown_face bot_up_env []) delivered_world))
  = [msg_owner_notified] /\
  spoken (trace (exec (on_unknown_face no_bot_env []) delivered_world))
  = [msg_owner_not_notified] /\
  spoken (trace (exec (on_unknown_face bot_down_env []) delivered_world))
  = [msg_send_error] /\
  msg_send_error <> msg_owner_notified /\
  msg_send_error <> msg_owner_not_notified.
Proof. repeat split; try reflexivity; discriminate. Qed.

(** A failed write of the snapshot happens before the alerting step and is
    not caught. *)
Lemma on_unknown_face_save_fails
    (E : env) (photo : list Byte.byte) (w : world) :
  file_write_ok E (unknown_face_filename (clock w)) = false ->
  fst (on_unknown_face E photo w) = Raise OSError /\
  spoken (trace (exec (on_unknown_face E photo) w)) = spoken (trace w).
Proof.
  intros Hf.
  unfold on_unknown_face, save_file, exec.
  cbv beta iota zeta delta [bind try_except time_time gets modify].
  cbn [clock emit]. rewrite Hf. cbv beta iota delta [raise].
  cbn [fst snd]. unfold emit. cbn [trace].
  rewrite spoken_app. simpl. now rewrite app_nil_r.
Qed.

(* ================================================================== *)
(** ** Listing a user's schedules *)

Lemma for_each_ext {A : Type} (f g : A -> M unit) (l : list A) (w : world) :
  (forall x w', f x w' = g x w') -> for_each l f w = for_each l g w.
Proof.
  intros H. revert w; induction l as [|x l IH]; intros w; [reflexivity|].
  cbn [for_each]. unfold bind. rewrite H.
  destruct (g x w) as [[[]|e] w']; [apply IH | reflexivity].
Qed.

Lemma select_upcoming_owner (t : Db.table) (u : string) (lim : Z)
    (x : string * string * Z) :
  In x (Db.select_upcoming t u lim) ->
  exists r, In r (Db.rows t) /\ Db.user_id r = u /\ x = Db.tuple_of r.
Proof.
  unfold Db.select_upcoming. intros H.
  apply in_map_iff in H as (r & <- & H).
  apply DbFacts.limit_rows_In, DbFacts.order_by_when_ts_In, filter_In in H.
  destruct H as [Hin Hu]. apply String.eqb_eq in Hu.
  now exists r.
Qed.

Lemma select_upcoming_sorted (t : Db.table) (u : string) (lim : Z) :
  StronglySorted Db.tuples_by_when (Db.select_upcoming t u lim).
Proof.
  unfold Db.select_upcoming.
  apply (DbFacts.map_sorted _
           (DbFacts.limit_rows_sorted _ _ _
              (DbFacts.order_by_when_ts_sorted _))).
Qed.

Lemma select_upcoming_length (t : Db.table) (u : string) (lim : Z) :
  0 <= lim -> Z.of_nat (List.length (Db.select_upcoming t u lim)) <= lim.
Proof.
  intros H. unfold Db.select_upcoming. rewrite length_map.
  now apply DbFacts.limit_rows_length.
Qed.

(** With room for all of the user's rows, none is left out. *)
Lemma select_upcoming_complete (t : Db.table) (u : string) (lim : Z)
    (r : Db.row) :
  Z.of_nat (List.length
              (filter (fun r => (Db.user_id r =? u)%string) (Db.rows t)))
    <= lim ->
  In r (Db.rows t) -> Db.user_id r = u ->
  In (Db.tuple_of r) (Db.select_upcoming t u lim).
Proof.
  intros Hlen Hin Hu. unfold Db.select_upcoming.
  apply (in_map Db.tuple_of).
  rewrite DbFacts.limit_rows_all
    by (left; now rewrite DbFacts.order_by_when_ts_length).
  apply DbFacts.order_by_when_ts_In, filter_In.
  split; [exact Hin | now apply String.eqb_eq].
Qed.

Lemma handle_show_schedule_unfold (E : env) (u : string) (w : world) :
  handle_show_schedule E u w
  = match Db.select_upcoming (db w) u default_limit with
    | [] => speak E msg_no_upcoming w
    | rows =>
        (speak E msg_upcoming_header ;; for_each rows (speak_item E)) w
    end.
Proof.
  unfold handle_show_schedule, bind at 1.
  rewrite get_user_upcoming_run. cbv beta iota.
  destruct (Db.select_upcoming (db w) u default_limit) as [|x l];
    [reflexivity|].
  unfold bind. destruct (speak E msg_upcoming_header w) as [[[]|e] w'];
    [|reflexivity].
  apply for_each_ext. intros [[? ?] ?] ?; reflexivity.
Qed.

Lemma speak_item_run (E : env) (x : string * string * Z) (w : world) :
  speak_item E x w
  = if item_ok E x then speak E (item_line E x) w
    else (Raise TimestampError, w).
Proof.
  destruct x as [[ti n] ts]. unfold speak_item, item_ok, fromtimestamp, bind.
  cbn [Db.tuple_when snd]. now destruct (fromtimestamp_ok E ts).
Qed.

(** The listing loop speaks the rows up to the first whose time cannot be
    converted, and raises there. *)
Lemma for_each_items (E : env) (l : list (string * string * Z)) (w : world) :
  fst (for_each l (speak_item E) w)
  = (if forallb (item_ok E) l then Ok tt else Raise TimestampError) /\
  trace (exec (for_each l (speak_item E)) w)
  = (trace w ++ map (fun x => EvSpeak (item_line E x))
                    (items_before_error E l))%list /\
  db (exec (for_each l (speak_item E)) w) = db w /\
  jobs (exec (for_each l (speak_item E)) w) = jobs w.
Proof.
  revert w; induction l as [|x l IH]; intros w.
  - cbn. now rewrite app_nil_r.
  - cbn [for_each forallb items_before_error]. unfold exec, bind.
    rewrite speak_item_run.
    destruct (item_ok E x); cbn [andb].
    + rewrite speak_run. cbv beta iota.
      destruct (IH (advance (speak_secs E (item_line E x))
                      (emit (EvSpeak (item_line E x)) w)))
        as (H1 & H2 & H3 & H4).
      unfold exec in *. rewrite H1, H2, H3, H4. cbn.
      now rewrite <- app_assoc.
    + cbn. now rewrite app_nil_r.
Qed.

Lemma items_before_error_all (E : env) (l : list (string * string * Z)) :
  forallb (item_ok E) l = true -> items_before_error E l = l.
Proof.
  induction l as [|x l IH]; cbn; [reflexivity|].
  destruct (item_ok E x); cbn; [|discriminate].
  intros H. now rewrite IH.
Qed.

Lemma handle_show_schedule_run (E : env) (u : string) (w : world) :
  let shown := Db.select_upcoming (db w) u default_limit in
  fst (handle_show_schedule E u w)
  = (if forallb (item_ok E) shown then Ok tt else Raise TimestampError) /\
  trace (exec (handle_show_schedule E u) w)
  = (trace w ++
     match shown with
     | [] => [EvSpeak msg_no_upcoming]
     | rows => EvSpeak msg_upcoming_header
               :: map (fun x => EvSpeak (item_line E x))
                      (items_before_error E rows)
     end)%list /\
  db (exec (handle_show_schedule E u) w) = db w /\
  jobs (exec (handle_show_schedule E u) w) = jobs w.
Proof.
  cbv zeta. unfold exec. rewrite handle_show_schedule_unfold.
  destruct (Db.select_upcoming (db w) u default_limit) as [|x l] eqn:Hs.
  - rewrite speak_run. now cbn.
  - unfold bind. rewrite speak_run. cbv beta iota.
    destruct (for_each_items E (x :: l)
                (advance (speak_secs E msg_upcoming_header)
                   (emit (EvSpeak msg_upcoming_header) w)))
      as (H1 & H2 & H3 & H4).
    unfold exec in *. rewrite H1, H2, H3, H4. cbn [trace advance emit].
    now rewrite <- app_assoc.
Qed.

(** C7 (as the code has it): for a limit that is not negative,
    [get_user_upcoming] returns normally, without changing the world, at most
    [limit] tuples [(title, notes, when_ts)], each taken from a row of that
    user, in ascending [when_ts]; and [show_schedule] -- which asks with the
    default limit 10 -- speaks the "no upcoming schedules" sentence when the
    result is empty and otherwise a header followed by one line per tuple, in
    that order: all of them when every listed time can be converted to a
    date, and otherwise those before the first that cannot, where the
    exception of [datetime.fromtimestamp] ends the listing. *)
Theorem get_user_upcoming_sorted_bounded
    (E : env) (w : world) (u : string) (lim : Z) :
  0 <= lim ->
  exists rows,
    get_user_upcoming u lim w = (Ok rows, w) /\
    Z.of_nat (List.length rows) <= lim /\
    StronglySorted Db.tuples_by_when rows /\
    (forall x, In x rows ->
       exists r, In r (Db.rows (db w)) /\ Db.user_id r = u
                 /\ x = Db.tuple_of r) /\
    default_limit = 10 /\
    exists shown,
      get_user_upcoming u default_limit w = (Ok shown, w) /\
      fst (handle_show_schedule E u w)
      = (if forallb (item_ok E) shown then Ok tt else Raise TimestampError) /\
      spoken (trace (exec (handle_show_schedule E u) w))
      = (spoken (trace w) ++
         match shown with
         | [] => [msg_no_upcoming]
         | _ => msg_upcoming_header
                :: map (item_line E) (items_before_error E shown)
         end)%list /\
      (forallb (item_ok E) shown = true -> items_before_error E shown = shown).
Proof.
  intros Hlim. exists (Db.select_upcoming (db w) u lim).
  split; [reflexivity|].
  split; [now apply select_upcoming_length|].
  split; [apply select_upcoming_sorted|].
  split; [intros x; apply select_upcoming_owner|].
  split; [reflexivity|].
  exists (Db.select_upcoming (db w) u default_limit).
  split; [reflexivity|].
  destruct (handle_show_schedule_run E u w) as (H1 & H2 & _ & _).
  cbv zeta in H1, H2.
  split; [exact H1|]. split; [|apply items_before_error_all].
  rewrite H2, spoken_app. f_equal.
  destruct (Db.select_upcoming (db w) u default_limit) as [|x l];
    [reflexivity|].
  cbn [spoken flat_map app]. f_equal.
  generalize (items_before_error E (x :: l)) as l'. intros l'.
  induction l' as [|y l' IH]; [reflexivity|].
  cbn. f_equal. exact IH.
Qed.

Lemma get_user_upcoming_sorted_bounded_witness :
  (exists rows,
    get_user_upcoming "alice" 2 busy_world = (Ok rows, busy_world) /\
    Z.of_nat (List.length rows) <= 2 /\
    StronglySorted Db.tuples_by_when rows /\
    (forall x, In x rows ->
       exists r, In r (Db.rows (db busy_world)) /\ Db.user_id r = "alice"
                 /\ x = Db.tuple_of r) /\
    default_limit = 10 /\
    exists shown,
      get_user_upcoming "alice" default_limit busy_world
      = (Ok shown, busy_world) /\
      fst (handle_show_schedule bot_up_env "alice" busy_world)
      = (if forallb (item_ok bot_up_env) shown
         then Ok tt else Raise TimestampError) /\
      spoken (trace (exec (handle_show_schedule bot_up_env "alice")
                       busy_world))
      = (spoken (trace busy_world) ++
         match shown with
         | [] => [msg_no_upcoming]
         | _ => msg_upcoming_header
                :: map (item_line bot_up_env)
                       (items_before_error bot_up_env shown)
         end)%list /\
      (forallb (item_ok bot_up_env) shown = true ->
       items_before_error bot_up_env shown = shown)) /\
  get_user_upcoming "alice" 2 busy_world
  = (Ok [("water plants", "", 50); ("call mom", "", 100)], busy_world) /\
  get_user_upcoming "alice" default_limit busy_world
  = (Ok [("water plants", "", 50); ("call mom", "", 100);
         ("pay rent", "", 100); ("dentist", "", 300)], busy_world) /\
  handle_show_schedule bot_up_env "alice" busy_world
  = (Ok tt,
     mk_world 205 busy_db [] 0 0
       [EvSpeak msg_upcoming_header;
        EvSpeak "water plants at 50"; EvSpeak "call mom at 100";
        EvSpeak "pay rent at 100"; EvSpeak "dentist at 300"]).
Proof.
  split; [|repeat split; reflexivity].
  apply (get_user_upcoming_sorted_bounded bot_up_env busy_world "alice" 2).
  lia.
Defined.

(** C7 (as stated) fails.  At clock 500 the listing for alice holds her
    reminder of time 100, which is in the past and already delivered, and
    [show_schedule] announces it as an upcoming item; and under the limit -1
    the result is not bounded by the limit. *)
Lemma get_user_upcoming_not_only_future :
  clock delivered_world = 500 /\
  eval (get_user_upcoming "alice" 10) delivered_world
  = Some [("call mom", "", 100)] /\
  spoken (trace (exec (handle_show_schedule bot_up_env "alice")
                   delivered_world))
  = [msg_upcoming_header; "call mom at 100"] /\
  eval (get_user_upcoming "alice" (-1)) delivered_world
  = Some [("call mom", "", 100)] /\
  ~ (Z.of_nat (List.length [("call mom", "", 100)]) <= -1).
Proof. repeat split; try reflexivity. simpl. lia. Qed.

(* ================================================================== *)
(** ** One turn of the conversation *)

Lemma listen_run (E : env) (site : listen_site) (w : world) :
  transcribe_audio_from_mic_demo E site w
  = (Ok (heard E (listens w)),
     advance (listen_secs E (listens w))
       (count_listen (emit (EvListen site (clock w) (heard E (listens w))) w))).
Proof. reflexivity. Qed.

(** The [add_schedule] branch, case by case. *)
Lemma handle_add_schedule_effect (E : env) (user text : string) (w : world) :
  let follow := heard E (listens w) in
  let asked := EvListen FollowUpListen (clock w + speak_secs E msg_ask_when)
                 follow in
  let w' := exec (handle_add_schedule E user text) w in
  fst (handle_add_schedule E user text w) = Ok tt /\
  match dateparser_parse E text with
  | Some d =>
      trace w' = (trace w ++ [EvParse text;
                              EvSpeak (msg_scheduled E text d)])%list /\
      listens w' = listens w /\
      clock w' = clock w + speak_secs E (msg_scheduled E text d) /\
      reminder_created user text d w w'
  | None =>
      listens w' = S (listens w) /\
      match dateparser_parse E follow with
      | Some d =>
          trace w' = (trace w ++ [EvParse text; EvSpeak msg_ask_when; asked;
                                  EvParse follow;
                                  EvSpeak (msg_scheduled E text d)])%list /\
          clock w' = clock w + speak_secs E msg_ask_when
                     + listen_secs E (listens w)
                     + speak_secs E (msg_scheduled E text d) /\
          reminder_created user text d w w'
      | None =>
          trace w' = (trace w ++ [EvParse text; EvSpeak msg_ask_when; asked;
                                  EvParse follow;
                                  EvSpeak msg_time_not_understood])%list /\
          clock w' = clock w + speak_secs E msg_ask_when
                     + listen_secs E (listens w)
                     + speak_secs E msg_time_not_understood /\
          db w' = db w /\ jobs w' = jobs w
      end
  end.
Proof.
  cbv zeta.
  unfold handle_add_schedule, extract_datetime_from_text, speak,
    transcribe_audio_from_mic_demo, add_schedule, scheduler_add_job,
    reminder_created, Db.insert.
  run_m.
  destruct (dateparser_parse E text) as [d|]; run_m.
  - rewrite <- !app_assoc. cbn [app]. repeat split.
  - destruct (dateparser_parse E (heard E (listens w))) as [d|]; run_m;
      rewrite <- !app_assoc; cbn [app]; repeat split.
Qed.



(** Whatever the intent, a turn returns normally and none of its events is a
    top-of-turn listen. *)
Lemma handle_text_effect (E : env) (user text : string) (w : world) :
  exists evs,
    fst (handle_text E user text w) = Ok tt /\
    trace (exec (handle_text E user text) w) = (trace w ++ evs)%list /\
    Forall not_turn_listen evs.
Proof.
  unfold handle_text.
  destruct (parse_intent_simple (Some text)) eqn:Hp.
  - destruct (handle_add_schedule_effect E user text w) as [H1 H2].
    cbv zeta in H2.
    destruct (dateparser_parse E text) as [d|].
    + destruct H2 as (Ht & _). eexists. split; [exact H1|].
      split; [exact Ht|]. repeat constructor.
    + destruct H2 as [_ H2].
      destruct (dateparser_parse E (heard E (listens w))) as [d|];
        destruct H2 as (Ht & _); eexists; (split; [exact H1|]);
        (split; [exact Ht|]); repeat constructor.
  - now elim (show_schedule_unreachable (Some text)).
  - exists [EvSpeak (reply_with_llm_sim text user)]. repeat split.
    repeat constructor.
Qed.

(** *** The primary-key invariant is kept *)

Lemma trigger_notification_well_formed (E : env) (sid : Z) (w : world) :
  Db.well_formed (db w) ->
  Db.well_formed (db (exec (trigger_notification E sid) w)).
Proof.
  intros Hwf. unfold exec. rewrite trigger_notification_run.
  destruct (Db.lookup (db w) sid) as [r|]; [|exact Hwf].
  destruct (fromtimestamp_ok E (Db.when_ts r)); [|exact Hwf].
  cbn. now apply DbFacts.well_formed_update_notified.
Qed.

Lemma handle_text_well_formed (E : env) (user text : string) (w : world) :
  Db.well_formed (db w) ->
  Db.well_formed (db (exec (handle_text E user text) w)).
Proof.
  intros Hwf. unfold handle_text.
  destruct (parse_intent_simple (Some text)) eqn:Hp.
  - destruct (handle_add_schedule_effect E user text w) as [_ H].
    cbv zeta in H.
    pose proof (DbFacts.well_formed_insert (db w) user text "") as Hins.
    destruct (dateparser_parse E text) as [d|].
    + destruct H as (_ & _ & _ & -> & _). now apply (Hins d).
    + destruct H as [_ H].
      destruct (dateparser_parse E (heard E (listens w))) as [d|].
      * destruct H as (_ & _ & -> & _). now apply (Hins d).
      * destruct H as (_ & _ & -> & _). exact Hwf.
  - now elim (show_schedule_unreachable (Some text)).
  - exact Hwf.
Qed.

Lemma poll_pending_schedules_well_formed (w : world) :
  Db.well_formed (db w) ->
  Db.well_formed (db (exec poll_pending_schedules w)).
Proof.
  intros Hwf. unfold exec. now rewrite poll_pending_schedules_run.
Qed.

(* ================================================================== *)
(** ** The session loop *)

Lemma not_turn_listen_in_time (T0 timeout : Z) (e : event) :
  not_turn_listen e -> turn_listen_in_time T0 timeout e.
Proof. destruct e as [| [] | | | |]; simpl; tauto. Qed.

Lemma silence_is_last_app (evs new : list event) :
  Forall not_turn_listen evs -> silence_is_last new ->
  silence_is_last (evs ++ new).
Proof.
  induction 1 as [|e evs He _ IH]; intros Hn; [exact Hn|].
  destruct e as [| [] ? [] | | | |]; simpl in *; tauto.
Qed.

Lemma session_loop_unfold
    (E : env) (fuel : nat) (user : string) (T0 timeout : Z) (w : world) :
  session_loop E (S fuel) user T0 timeout w
  = if clock w - T0 <? timeout then
      let text := heard E (listens w) in
      let w1 := exec (transcribe_audio_from_mic_demo E TurnListen) w in
      if (text =? "")%string then (Ok true, w1)
      else
        match handle_text E user text w1 with
        | (Ok _, w2) => session_loop E fuel user T0 timeout w2
        | (Raise e, w2) => (Raise e, w2)
        end
    else (Ok true, w).
Proof.
  cbn [session_loop]. unfold bind, time_time, gets, exec. cbv beta iota.
  destruct (clock w - T0 <? timeout); [|reflexivity].
  rewrite listen_run. cbv beta iota zeta. cbn [snd].
  now destruct (heard E (listens w) =? "")%string.
Qed.

(** Leaving the loop on silence: one listen, nothing routed. *)
Lemma session_loop_silence
    (E : env) (fuel : nat) (user : string) (T0 timeout : Z) (w : world) :
  heard E (listens w) = "" ->
  session_loop E (S fuel) user T0 timeout w
  = if clock w - T0 <? timeout
    then (Ok true, exec (transcribe_audio_from_mic_demo E TurnListen) w)
    else (Ok true, w).
Proof.
  intros Hs. rewrite session_loop_unfold. cbv zeta. now rewrite Hs.
Qed.

Lemma session_loop_trace
    (E : env) (user : string) (T0 timeout : Z) (fuel : nat) (w : world) :
  exists b new,
    fst (session_loop E fuel user T0 timeout w) = Ok b /\
    trace (exec (session_loop E fuel user T0 timeout) w)
    = (trace w ++ new)%list /\
    Forall (turn_listen_in_time T0 timeout) new /\
    silence_is_last new.
Proof.
  revert w; induction fuel as [|fuel IH]; intros w.
  - exists false, []. cbn. rewrite app_nil_r. repeat split. constructor.
  - unfold exec at 1. rewrite session_loop_unfold. cbv zeta.
    destruct (clock w - T0 <? timeout) eqn:Hlt.
    2:{ exists true, []. cbn. rewrite app_nil_r. repeat split. constructor. }
    apply Z.ltb_lt in Hlt.
    set (text := heard E (listens w)).
    set (w1 := exec _ w).
    assert (Ht1 : trace w1 = (trace w ++ [EvListen TurnListen (clock w) text])%list)
      by reflexivity.
    destruct (text =? "")%string eqn:He.
    + apply String.eqb_eq in He. exists true, [EvListen TurnListen (clock w) text].
      cbn [fst snd ret]. split; [reflexivity|]. split; [exact Ht1|]. split.
      * repeat constructor. exact Hlt.
      * rewrite He. reflexivity.
    + apply String.eqb_neq in He.
      destruct (handle_text_effect E user text w1) as (evs & H1 & H2 & H3).
      unfold exec in H2.
      destruct (handle_text E user text w1) as [[[]|e] w2];
        cbn [fst snd] in *; [|discriminate].
      destruct (IH w2) as (b & new & I1 & I2 & I3 & I4).
      unfold exec in I2.
      exists b, (EvListen TurnListen (clock w) text :: evs ++ new)%list.
      split; [exact I1|]. split; [|split].
      * rewrite I2, H2, Ht1, <- !app_assoc. reflexivity.
      * constructor; [exact Hlt|]. apply Forall_app. split; [|exact I3].
        eapply Forall_impl; [|exact H3].
        apply not_turn_listen_in_time.
      * destruct text as [|c text']; [now elim He|].
        cbn [silence_is_last]. now apply silence_is_last_app.
Qed.

Lemma session_loop_well_formed
    (E : env) (user : string) (T0 timeout : Z) (fuel : nat) (w : world) :
  Db.well_formed (db w) ->
  Db.well_formed (db (exec (session_loop E fuel user T0 timeout) w)).
Proof.
  revert w; induction fuel as [|fuel IH]; intros w Hwf; [exact Hwf|].
  unfold exec. rewrite session_loop_unfold. cbv zeta.
  destruct (clock w - T0 <? timeout); [|exact Hwf].
  destruct (heard E (listens w) =? "")%string; [exact Hwf|].
  set (w1 := exec (transcribe_audio_from_mic_demo E TurnListen) w).
  pose proof (handle_text_well_formed E user (heard E (listens w)) w1 Hwf)
    as Hwf2.
  unfold exec in Hwf2.
  destruct (handle_text E user (heard E (listens w)) w1) as [[[]|e] w2];
    cbn [snd] in *; [now apply IH | exact Hwf2].
Qed.

(** C6 (as the code has it): the deadline is measured from the clock read
    after the greeting and is checked at the top of every turn, so every
    top-of-turn listen starts while less than the timeout has elapsed; the
    follow-up listen of the [add_schedule] branch is not checked.  A
    top-of-turn listen that returns the empty text is the last thing the
    session does: the loop is left with nothing routed. *)
Theorem conversation_session_deadline
    (E : env) (fuel : nat) (user : string) (timeout : Z) (w : world) :
  let T0 := clock (exec (speak E (greeting user)) w) in
  default_session_timeout = 90 /\
  (exists b new,
     fst (conversation_session E fuel user timeout w) = Ok b /\
     trace (exec (conversation_session E fuel user timeout) w)
     = (trace w ++ EvSpeak (greeting user) :: new)%list /\
     Forall (turn_listen_in_time T0 timeout) new /\
     silence_is_last new) /\
  (forall (w1 : world) (fuel' : nat),
      heard E (listens w1) = "" ->
      session_loop E (S fuel') user T0 timeout w1
      = if clock w1 - T0 <? timeout
        then (Ok true, exec (transcribe_audio_from_mic_demo E TurnListen) w1)
        else (Ok true, w1)).
Proof.
  cbv zeta. split; [reflexivity|]. split.
  - assert (Hc : conversation_session E fuel user timeout w
                 = session_loop E fuel user
                     (clock (exec (speak E (greeting user)) w)) timeout
                     (exec (speak E (greeting user)) w)) by reflexivity.
    unfold exec at 1. rewrite !Hc.
    set (w0 := exec (speak E (greeting user)) w).
    destruct (session_loop_trace E user (clock w0) timeout fuel w0)
      as (b & new & H1 & H2 & H3 & H4).
    exists b, new. split; [exact H1|]. split; [|split; assumption].
    unfold exec in H2. rewrite H2. subst w0. unfold exec.
    rewrite speak_run. cbn. now rewrite <- app_assoc.
  - intros w1 fuel' Hs. now apply session_loop_silence.
Qed.

(** C6 (as stated) fails.  In the first run the first listen lasts 100
    seconds; the session, started at clock 1, then starts its follow-up listen
    at clock 102, after the 90 seconds have elapsed.  In the second run the
    follow-up listen returns the empty text, and the session goes on: it
    listens again and routes "hello" to the chat reply. *)
Lemma follow_up_listen_unchecked :
  clock (exec (speak (scripted_env ["remind me"] 100 1 no_date false false)
                 (greeting "alice")) world0) = 1 /\
  trace (exec (conversation_session
                 (scripted_env ["remind me"] 100 1 no_date false false)
                 10 "alice" 90) world0)
  = [EvSpeak "Hi Alice, nice to see you. How can I help?";
     EvListen TurnListen 1 "remind me";
     EvParse "remind me";
     EvSpeak msg_ask_when;
     EvListen FollowUpListen 102 "";
     EvParse "";
     EvSpeak msg_time_not_understood] /\
  1 + 90 < 102 /\
  trace (exec (conversation_session
                 (scripted_env ["remind me"; ""; "hello"] 1 1 no_date false
                    false)
                 10 "alice" 90) world0)
  = [EvSpeak "Hi Alice, nice to see you. How can I help?";
     EvListen TurnListen 1 "remind me";
     EvParse "remind me";
     EvSpeak msg_ask_when;
     EvListen FollowUpListen 3 "";
     EvParse "";
     EvSpeak msg_time_not_understood;
     EvListen TurnListen 5 "hello";
     EvSpeak "I heard: hello";
     EvListen TurnListen 7 ""].
Proof. repeat split; try reflexivity. Qed.

(* ================================================================== *)
(** ** The session ends *)

Section Termination.

Variable E : env.
Hypothesis listen_takes_time : forall n, 1 <= listen_secs E n.
Hypothesis speak_takes_time : forall m, 0 <= speak_secs E m.

Lemma for_each_speak_clock {A : Type} (f : A -> string) (l : list A)
    (w : world) :
  clock w <= clock (exec (for_each l (fun x => speak E (f x))) w).
Proof.
  revert w; induction l as [|x l IH]; intros w; [cbn; lia|].
  cbn [for_each]. unfold exec, bind. rewrite speak_run. cbv beta iota.
  etransitivity; [|apply IH]. cbn. pose proof (speak_takes_time (f x)). lia.
Qed.

Lemma handle_text_clock (user text : string) (w : world) :
  clock w <= clock (exec (handle_text E user text) w).
Proof.
  unfold handle_text.
  destruct (parse_intent_simple (Some text)) eqn:Hp.
  - destruct (handle_add_schedule_effect E user text w) as [_ H].
    cbv zeta in H.
    pose proof (listen_takes_time (listens w)).
    pose proof (speak_takes_time msg_ask_when).
    pose proof (speak_takes_time msg_time_not_understood).
    destruct (dateparser_parse E text) as [d|].
    + destruct H as (_ & _ & -> & _).
      pose proof (speak_takes_time (msg_scheduled E text d)). lia.
    + destruct H as [_ H].
      destruct (dateparser_parse E (heard E (listens w))) as [d|];
        destruct H as (_ & -> & _).
      * pose proof (speak_takes_time (msg_scheduled E text d)). lia.
      * lia.
  - now elim (show_schedule_unreachable (Some text)).
  - unfold exec. rewrite speak_run. unfold advance, emit. cbn [snd clock].
    pose proof (speak_takes_time (reply_with_llm_sim text user)). lia.
Qed.

(** When every listen takes at least a second, the loop is left within as
    many turns as there are seconds before the deadline. *)
Lemma session_loop_ends (user : string) (T0 timeout : Z) (fuel : nat)
    (w : world) :
  (Z.to_nat (T0 + timeout - clock w) < fuel)%nat ->
  fst (session_loop E fuel user T0 timeout w) = Ok true.
Proof.
  revert w; induction fuel as [|fuel IH]; intros w Hf; [lia|].
  rewrite session_loop_unfold. cbv zeta.
  destruct (clock w - T0 <? timeout) eqn:Hlt; [|reflexivity].
  apply Z.ltb_lt in Hlt.
  destruct (heard E (listens w) =? "")%string; [reflexivity|].
  set (w1 := exec (transcribe_audio_from_mic_demo E TurnListen) w).
  assert (H1 : clock w1 = clock w + listen_secs E (listens w)) by reflexivity.
  pose proof (listen_takes_time (listens w)) as Hl.
  pose proof (handle_text_clock user (heard E (listens w)) w1) as Hc.
  destruct (handle_text_effect E user (heard E (listens w)) w1)
    as (evs & Hok & _).
  unfold exec in Hc.
  destruct (handle_text E user (heard E (listens w)) w1) as [[[]|e] w2];
    cbn [fst snd] in *; [|discriminate].
  apply IH. lia.
Qed.

End Termination.

Lemma conversation_session_ends
    (E : env) (user : string) (timeout : Z) (w : world) :
  (forall n, 1 <= listen_secs E n) ->
  (forall m, 0 <= speak_secs E m) ->
  fst (conversation_session E (S (Z.to_nat timeout)) user timeout w) = Ok true.
Proof.
  intros Hl Hs.
  change (conversation_session E (S (Z.to_nat timeout)) user timeout w)
    with (session_loop E (S (Z.to_nat timeout)) user
            (clock (exec (speak E (greeting user)) w)) timeout
            (exec (speak E (greeting user)) w)).
  apply session_loop_ends; [assumption | assumption | lia].
Qed.

(* ================================================================== *)
(** * Further properties of the code *)

(** ** Intent classification *)

Lemma lower_app (a b : string) :
  PyStr.lower (a ++ b) = PyStr.lower a ++ PyStr.lower b.
Proof.
  induction a as [|c a IH]; simpl; [reflexivity | now rewrite IH].
Qed.

Lemma parse_add_iff (text : option string) :
  parse_intent_simple text = add_schedule_intent <->
  exists k, In k add_keywords
            /\ substring_of k (PyStr.lower (PyStr.or_empty text)).
Proof.
  unfold parse_intent_simple, add_keywords.
  set (t := PyStr.lower (PyStr.or_empty text)).
  destruct (PyStr.contains t "remind me") eqn:H1.
  { split; [intros _|reflexivity].
    exists "remind me". split; [now left | now apply contains_iff]. }
  destruct (PyStr.contains t "schedule") eqn:H2.
  { split; [intros _|reflexivity].
    exists "schedule". split; [right; now left | now apply contains_iff]. }
  destruct (PyStr.contains t "add") eqn:H3.
  { split; [intros _|reflexivity].
    exists "add". split; [right; right; now left | now apply contains_iff]. }
  cbn [orb]. split.
  - destruct (_ || _ || _); discriminate.
  - intros (k & [<-|[<-|[<-|[]]]] & Hk); apply contains_iff in Hk; congruence.
Qed.

(** X1: the classifier has two answers only.  It never answers
    [show_schedule]; it answers [add_schedule] exactly when the lower-cased
    text contains "remind me", "schedule" or "add", and [chat] exactly when it
    contains none of them. *)
Theorem parse_intent_simple_two_answers (text : option string) :
  let t := PyStr.lower (PyStr.or_empty text) in
  let hit := exists k, In k add_keywords /\ substring_of k t in
  parse_intent_simple text <> show_schedule_intent /\
  (parse_intent_simple text = add_schedule_intent <-> hit) /\
  (parse_intent_simple text = chat_intent <-> ~ hit).
Proof.
  cbv zeta.
  pose proof (show_schedule_unreachable text) as Hns.
  pose proof (parse_add_iff text) as Hadd.
  split; [exact Hns|]. split; [exact Hadd|].
  destruct (parse_intent_simple text); split; intros H;
    try discriminate; try reflexivity; try (now elim Hns).
  - elim H. now apply Hadd.
  - intros Hh. apply Hadd in Hh. discriminate.
Qed.

(** X2: a keyword of the first rule is found in any letter case and in any
    context: a text that has it anywhere, with anything before and after it,
    is classified [add_schedule]. *)
Theorem keyword_in_any_context (pre k post : string) :
  In (PyStr.lower k) add_keywords ->
  parse_intent_simple (Some (pre ++ k ++ post)) = add_schedule_intent.
Proof.
  intros Hk. apply parse_add_iff. exists (PyStr.lower k).
  split; [exact Hk|]. cbn [PyStr.or_empty].
  rewrite !lower_app.
  now exists (PyStr.lower pre), (PyStr.lower post).
Qed.

Lemma keyword_in_any_context_witness :
  parse_intent_simple (Some ("my new " ++ "ADDress" ++ " is long"))
  = add_schedule_intent /\
  parse_intent_simple (Some ("Please " ++ "Remind Me" ++ "!"))
  = add_schedule_intent.
Proof.
  split.
  - apply (keyword_in_any_context "my new " "ADD" "ress is long").
    right; right; left; reflexivity.
  - apply (keyword_in_any_context "Please " "Remind Me" "!").
    left; reflexivity.
Defined.

(** ** Decimal names *)

Lemma to_int_not_nil (z : Z) :
  Z.to_int z <> Decimal.Pos Decimal.Nil /\
  Z.to_int z <> Decimal.Neg Decimal.Nil.
Proof.
  assert (Hp : forall p, Pos.to_uint p <> Decimal.Nil).
  { intros p H. pose proof (DecimalPos.Unsigned.of_to p) as Hof.
    rewrite H in Hof. discriminate. }
  destruct z as [|p|p]; simpl; split; try discriminate;
    intros [= H]; now apply (Hp p).
Qed.

(** [str] of an integer can be read back: two integers with the same decimal
    text are equal. *)
Lemma str_of_Z_inj (a b : Z) : PyStr.str_of_Z a = PyStr.str_of_Z b -> a = b.
Proof.
  unfold PyStr.str_of_Z. intros H.
  apply (f_equal NilZero.int_of_string) in H.
  destruct (to_int_not_nil a) as [A1 A2].
  destruct (to_int_not_nil b) as [B1 B2].
  rewrite !NilZero.isi in H by assumption.
  injection H as H. now apply DecimalZ.to_int_inj.
Qed.

Lemma string_length_app (a b : string) :
  String.length (a ++ b) = (String.length a + String.length b)%nat.
Proof.
  induction a as [|c a IH]; simpl; [reflexivity | now rewrite IH].
Qed.

Lemma append_inj_l (p a b : string) : p ++ a = p ++ b -> a = b.
Proof.
  induction p as [|c p IH]; simpl; [trivial|].
  intros [= H]. now apply IH.
Qed.

Lemma append_inj_r (a b s : string) : a ++ s = b ++ s -> a = b.
Proof.
  revert b; induction a as [|c a IH]; intros [|d b] H.
  - reflexivity.
  - apply (f_equal String.length) in H. simpl in H.
    rewrite string_length_app in H. lia.
  - apply (f_equal String.length) in H. simpl in H.
    rewrite string_length_app in H. lia.
  - simpl in H. injection H as -> H. f_equal. now apply IH.
Qed.

(** ** The schedule store: lookups after writes *)

Lemma find_app {A : Type} (f : A -> bool) (l l' : list A) :
  find f (l ++ l')
  = match find f l with Some x => Some x | None => find f l' end.
Proof.
  induction l as [|x l IH]; simpl; [reflexivity|].
  now destruct (f x).
Qed.

Lemma lookup_insert_other (t : Db.table) (u ti n : string) (wts i : Z) :
  i <> Db.seq t + 1 ->
  Db.lookup (fst (Db.insert t u ti n wts)) i = Db.lookup t i.
Proof.
  intros Hi. unfold Db.lookup; simpl. rewrite find_app.
  destruct (find _ (Db.rows t)); [reflexivity|]. simpl.
  destruct (Z.eqb_spec (Db.seq t + 1) i); [congruence | reflexivity].
Qed.

Lemma lookup_insert_new (t : Db.table) (u ti n : string) (wts : Z) :
  Db.well_formed t ->
  Db.lookup (fst (Db.insert t u ti n wts)) (Db.seq t + 1)
  = Some (Db.mk_row (Db.seq t + 1) u ti n wts 0).
Proof.
  intros Hwf. pose proof (DbFacts.insert_fresh t u ti n wts Hwf) as Hf.
  unfold Db.lookup in *; simpl in *. rewrite find_app, Hf. simpl.
  now rewrite Z.eqb_refl.
Qed.

Lemma lookup_update_notified (t : Db.table) (sid i : Z) :
  Db.lookup (Db.update_notified t sid) i
  = option_map (Db.set_notified sid) (Db.lookup t i).
Proof.
  unfold Db.lookup; simpl.
  induction (Db.rows t) as [|r l IH]; simpl; [reflexivity|].
  rewrite DbFacts.set_notified_id. now destruct (Db.id r =? i).
Qed.

Lemma update_notified_absent (t : Db.table) (sid : Z) :
  Db.lookup t sid = None -> Db.update_notified t sid = t.
Proof.
  intros Hl. destruct t as [rs s]. unfold Db.update_notified; simpl.
  f_equal. rewrite <- (map_id rs) at 2. apply map_ext_in.
  intros r Hr. unfold Db.set_notified.
  unfold Db.lookup in Hl; simpl in Hl.
  now rewrite (find_none _ _ Hl r Hr).
Qed.

Lemma set_notified_core (sid : Z) (r : Db.row) :
  row_core (Db.set_notified sid r) = row_core r.
Proof. unfold Db.set_notified. now destruct (Db.id r =? sid). Qed.

Lemma lookup_id (t : Db.table) (i : Z) (r : Db.row) :
  Db.lookup t i = Some r -> Db.id r = i /\ In r (Db.rows t).
Proof.
  intros H. apply find_some in H as [Hin Hid].
  split; [now apply Z.eqb_eq | exact Hin].
Qed.

Lemma lookup_update_same (t : Db.table) (sid : Z) :
  Db.lookup (Db.update_notified t sid) sid
  = option_map delivered_row (Db.lookup t sid).
Proof.
  rewrite lookup_update_notified.
  destruct (Db.lookup t sid) as [r|] eqn:Hl; [|reflexivity].
  apply lookup_id in Hl as [Hid _]. cbn [option_map]. f_equal.
  unfold Db.set_notified, delivered_row.
  now rewrite (proj2 (Z.eqb_eq _ _) Hid).
Qed.

Lemma lookup_update_other (t : Db.table) (sid i : Z) :
  i <> sid -> Db.lookup (Db.update_notified t sid) i = Db.lookup t i.
Proof.
  intros Hi. rewrite lookup_update_notified.
  destruct (Db.lookup t i) as [r|] eqn:Hl; [|reflexivity].
  apply lookup_id in Hl as [Hid _]. cbn [option_map]. f_equal.
  unfold Db.set_notified.
  destruct (Z.eqb_spec (Db.id r) sid); [congruence | reflexivity].
Qed.

(** X3: on a store that satisfies the primary-key invariant, [add_schedule]
    returns an id that no record had, the record read back under that id is
    the one given, not yet delivered; every other id reads as before; the
    invariant still holds and the next id handed out is one more. *)
Theorem add_schedule_then_lookup
    (w : world) (u ti n : string) (wts : Z) :
  Db.well_formed (db w) ->
  let sid := Db.seq (db w) + 1 in
  let w1 := exec (add_schedule u ti n wts) w in
  eval (add_schedule u ti n wts) w = Some sid /\
  Db.lookup (db w) sid = None /\
  Db.select_by_id (db w1) sid = Some (u, ti, n, wts) /\
  option_map Db.notified (Db.lookup (db w1) sid) = Some 0 /\
  (forall i, i <> sid -> Db.lookup (db w1) i = Db.lookup (db w) i) /\
  Db.well_formed (db w1) /\
  eval (add_schedule u ti n wts) w1 = Some (sid + 1).
Proof.
  intros Hwf. cbv zeta.
  pose proof (lookup_insert_new (db w) u ti n wts Hwf) as Hnew.
  split; [reflexivity|].
  split; [apply (DbFacts.insert_fresh (db w) u ti n wts Hwf)|].
  split; [unfold Db.select_by_id, exec; rewrite add_schedule_run; cbn [snd];
          unfold set_db; cbn [db]; now rewrite Hnew|].
  split; [unfold exec; rewrite add_schedule_run; cbn [snd];
          unfold set_db; cbn [db]; now rewrite Hnew|].
  split; [intros i Hi; apply (lookup_insert_other (db w) u ti n wts i Hi)|].
  split; [apply (DbFacts.well_formed_insert (db w) u ti n wts Hwf)|].
  reflexivity.
Qed.

Lemma add_schedule_then_lookup_witness :
  let w1 := exec (add_schedule "bob" "dentist" "bring card" 900) delivered_world in
  eval (add_schedule "bob" "dentist" "bring card" 900) delivered_world = Some 3 /\
  Db.lookup (db delivered_world) 3 = None /\
  Db.select_by_id (db w1) 3 = Some ("bob", "dentist", "bring card", 900) /\
  option_map Db.notified (Db.lookup (db w1) 3) = Some 0 /\
  (forall i, i <> 3 -> Db.lookup (db w1) i = Db.lookup (db delivered_world) i) /\
  Db.well_formed (db w1) /\
  eval (add_schedule "bob" "dentist" "bring card" 900) w1 = Some 4.
Proof.
  apply (add_schedule_then_lookup delivered_world "bob" "dentist" "bring card"
           900).
  repeat split; simpl; [|lia|].
  - repeat constructor; simpl; intuition discriminate.
  - repeat constructor; simpl; lia.
Defined.

(** X4: [mark_notified] changes one thing only.  The record under the id, if
    there is one, reads back with [notified = 1] and its other columns as they
    were; every other id reads as before; no row is added or removed and the
    id counter stays; and with no record under the id the world is left
    exactly as it was. *)
Theorem mark_notified_frame (w : world) (sid : Z) :
  let w1 := exec (mark_notified sid) w in
  Db.lookup (db w1) sid = option_map delivered_row (Db.lookup (db w) sid) /\
  (forall i, i <> sid -> Db.lookup (db w1) i = Db.lookup (db w) i) /\
  map row_core (Db.rows (db w1)) = map row_core (Db.rows (db w)) /\
  Db.seq (db w1) = Db.seq (db w) /\
  (Db.lookup (db w) sid = None -> w1 = w).
Proof.
  cbv zeta. unfold exec. rewrite mark_notified_run. cbn [snd].
  unfold set_db; cbn [db]. repeat split.
  - apply lookup_update_same.
  - intros i Hi. now apply lookup_update_other.
  - cbn [Db.update_notified Db.rows]. rewrite map_map.
    apply map_ext. apply set_notified_core.
  - intros Hl. rewrite (update_notified_absent _ _ Hl). now destruct w.
Qed.

(** ** Listing in time order *)

Lemma insert_by_when_perm (r : Db.row) (l : list Db.row) :
  Permutation (Db.insert_by_when r l) (r :: l).
Proof.
  induction l as [|x l IH]; simpl; [reflexivity|].
  destruct (Db.when_ts r <=? Db.when_ts x); [reflexivity|].
  rewrite IH. apply perm_swap.
Qed.

Lemma order_by_when_ts_perm (l : list Db.row) :
  Permutation (Db.order_by_when_ts l) l.
Proof.
  induction l as [|x l IH]; simpl; [reflexivity|].
  rewrite insert_by_when_perm. now constructor.
Qed.

Lemma sorted_app_le {A : Type} (R : A -> A -> Prop) (l1 l2 : list A) :
  StronglySorted R (l1 ++ l2) ->
  forall x y, In x l1 -> In y l2 -> R x y.
Proof.
  induction l1 as [|a l1 IH]; simpl; intros Hs x y Hx Hy; [contradiction|].
  inversion Hs as [|? ? Hs' Hall]; subst.
  destruct Hx as [->|Hx]; [|now apply IH].
  rewrite Forall_forall in Hall. apply Hall, in_or_app. now right.
Qed.

Lemma insert_by_when_same_time (k : Z) (r : Db.row) (l : list Db.row) :
  filter (fun x => Db.when_ts x =? k) (Db.insert_by_when r l)
  = filter (fun x => Db.when_ts x =? k) (r :: l).
Proof.
  induction l as [|x l IH]; [reflexivity|].
  cbn [Db.insert_by_when].
  destruct (Db.when_ts r <=? Db.when_ts x) eqn:Hle; [reflexivity|].
  apply Z.leb_gt in Hle.
  cbn [filter] in *. rewrite IH.
  destruct (Z.eqb_spec (Db.when_ts x) k), (Z.eqb_spec (Db.when_ts r) k);
    try reflexivity.
  lia.
Qed.

(** Rows of one and the same time keep their table order. *)
Lemma order_by_when_ts_stable (k : Z) (l : list Db.row) :
  filter (fun x => Db.when_ts x =? k) (Db.order_by_when_ts l)
  = filter (fun x => Db.when_ts x =? k) l.
Proof.
  induction l as [|x l IH]; [reflexivity|].
  cbn [Db.order_by_when_ts]. rewrite insert_by_when_same_time.
  cbn [filter]. now rewrite IH.
Qed.

Lemma filter_map_tuple (k : Z) (l : list Db.row) :
  filter (fun x => Db.tuple_when x =? k) (map Db.tuple_of l)
  = map Db.tuple_of (filter (fun r => Db.when_ts r =? k) l).
Proof.
  induction l as [|r l IH]; [reflexivity|].
  cbn [map filter Db.tuple_of Db.tuple_when snd].
  destruct (Db.when_ts r =? k); cbn [map]; now rewrite IH.
Qed.

(** X5: with a limit that is not negative, [get_user_upcoming] returns the
    first [limit] entries of the unlimited, time-ordered listing.  That
    listing holds every record of the user once, records of one and the same
    time in the order they were stored; so what is returned is never later
    than what is cut off. *)
Theorem get_user_upcoming_earliest
    (w : world) (u : string) (lim neg : Z) :
  0 <= lim -> neg < 0 ->
  let mine := filter (fun r => (Db.user_id r =? u)%string) (Db.rows (db w)) in
  exists all,
    eval (get_user_upcoming u neg) w = Some all /\
    Permutation all (map Db.tuple_of mine) /\
    StronglySorted Db.tuples_by_when all /\
    (forall k, filter (fun x => Db.tuple_when x =? k) all
               = map Db.tuple_of
                     (filter (fun r => Db.when_ts r =? k) mine)) /\
    eval (get_user_upcoming u lim) w = Some (firstn (Z.to_nat lim) all) /\
    forall x y, In x (firstn (Z.to_nat lim) all) ->
                In y (skipn (Z.to_nat lim) all) ->
                Db.tuple_when x <= Db.tuple_when y.
Proof.
  intros Hl Hn. cbv zeta. exists (Db.select_upcoming (db w) u neg).
  assert (Hall : Db.select_upcoming (db w) u neg
                 = map Db.tuple_of
                     (Db.order_by_when_ts
                        (filter (fun r => (Db.user_id r =? u)%string)
                                (Db.rows (db w))))).
  { unfold Db.select_upcoming, Db.limit_rows.
    now rewrite (proj2 (Z.ltb_lt _ _) Hn). }
  split; [reflexivity|]. split; [|split; [|split; [|split]]].
  - rewrite Hall. apply Permutation_map, order_by_when_ts_perm.
  - apply select_upcoming_sorted.
  - intros k. rewrite Hall, filter_map_tuple. f_equal.
    apply order_by_when_ts_stable.
  - rewrite Hall. unfold eval. rewrite get_user_upcoming_run. cbn [fst].
    f_equal. unfold Db.select_upcoming, Db.limit_rows.
    rewrite (proj2 (Z.ltb_ge _ _) Hl). symmetry. apply firstn_map.
  - apply sorted_app_le. rewrite firstn_skipn.
    apply select_upcoming_sorted.
Qed.

Lemma get_user_upcoming_earliest_witness :
  (let mine := filter (fun r => (Db.user_id r =? "alice")%string)
                      (Db.rows (db busy_world)) in
   exists all,
    eval (get_user_upcoming "alice" (-1)) busy_world = Some all /\
    Permutation all (map Db.tuple_of mine) /\
    StronglySorted Db.tuples_by_when all /\
    (forall k, filter (fun x => Db.tuple_when x =? k) all
               = map Db.tuple_of
                     (filter (fun r => Db.when_ts r =? k) mine)) /\
    eval (get_user_upcoming "alice" 2) busy_world
    = Some (firstn (Z.to_nat 2) all) /\
    forall x y, In x (firstn (Z.to_nat 2) all) ->
                In y (skipn (Z.to_nat 2) all) ->
                Db.tuple_when x <= Db.tuple_when y) /\
  eval (get_user_upcoming "alice" (-1)) busy_world
  = Some [("water plants", "", 50); ("call mom", "", 100);
          ("pay rent", "", 100); ("dentist", "", 300)] /\
  eval (get_user_upcoming "alice" 2) busy_world
  = Some [("water plants", "", 50); ("call mom", "", 100)] /\
  skipn (Z.to_nat 2)
        [("water plants", "", 50); ("call mom", "", 100);
         ("pay rent", "", 100); ("dentist", "", 300)]
  = [("pay rent", "", 100); ("dentist", "", 300)].
Proof.
  split; [|repeat split; reflexivity].
  apply (get_user_upcoming_earliest busy_world "alice" 2 (-1)); lia.
Defined.

(** ** The dispatcher on a stored record *)

Lemma row_message_set_notified (E : env) (sid : Z) (r : Db.row) :
  row_message E (Db.set_notified sid r) = row_message E r.
Proof. unfold Db.set_notified. now destruct (Db.id r =? sid). Qed.

(** The dispatcher leaves the store marked, or as it was. *)
Lemma trigger_notification_db (E : env) (sid : Z) (w : world) :
  db (exec (trigger_notification E sid) w) = Db.update_notified (db w) sid \/
  db (exec (trigger_notification E sid) w) = db w.
Proof.
  unfold exec. rewrite trigger_notification_run.
  destruct (Db.lookup (db w) sid) as [r|]; [|now right].
  destruct (fromtimestamp_ok E (Db.when_ts r)); [now left | now right].
Qed.

Lemma dispatch_existing
    (E : env) (w : world) (sid : Z) (r : Db.row) :
  Db.lookup (db w) sid = Some r ->
  fromtimestamp_ok E (Db.when_ts r) = true ->
  let w' := exec (trigger_notification E sid) w in
  fst (trigger_notification E sid w) = Ok tt /\
  spoken (trace w') = (spoken (trace w) ++ [row_message E r])%list /\
  tg_calls w' = (if telegram_bot E then S (tg_calls w) else tg_calls w) /\
  Db.lookup (db w') sid = Some (delivered_row r) /\
  (forall i, i <> sid -> Db.lookup (db w') i = Db.lookup (db w) i) /\
  (forall t, ~ In sid (Db.select_due (db w') t)) /\
  jobs w' = jobs w /\
  db w' = Db.update_notified (db w) sid.
Proof.
  intros Hl Hok. cbv zeta.
  unfold exec. rewrite trigger_notification_run, Hl, Hok. cbv zeta.
  cbn [fst snd]. cbn [trace tg_calls jobs db].
  split; [reflexivity|]. split.
  { rewrite spoken_app. cbn [spoken flat_map app]. f_equal.
    destruct (telegram_bot E); reflexivity. }
  split; [reflexivity|].
  split; [now rewrite lookup_update_same, Hl|].
  split; [intros i Hi; now apply lookup_update_other|].
  split; [intros t; apply DbFacts.update_notified_not_due|].
  split; reflexivity.
Qed.

(** X6: for a record that exists and whose time [datetime.fromtimestamp]
    converts, the dispatcher returns normally whatever Telegram answers,
    speaks the reminder once, makes one Bot API call when a bot is configured
    and none otherwise, and leaves the record marked delivered with its other
    columns unchanged: it is no longer due at any time, while every other id
    reads as before.  For a record whose time cannot be converted it raises
    before anything is spoken and leaves the world as it was, the record
    still pending. *)
Theorem trigger_notification_marks_delivered
    (E : env) (w : world) (sid : Z) (r : Db.row) :
  Db.lookup (db w) sid = Some r ->
  let w' := exec (trigger_notification E sid) w in
  if fromtimestamp_ok E (Db.when_ts r) then
    fst (trigger_notification E sid w) = Ok tt /\
    spoken (trace w') = (spoken (trace w) ++ [row_message E r])%list /\
    tg_calls w' = (if telegram_bot E then S (tg_calls w) else tg_calls w) /\
    Db.lookup (db w') sid = Some (delivered_row r) /\
    (forall i, i <> sid -> Db.lookup (db w') i = Db.lookup (db w) i) /\
    (forall t, ~ In sid (Db.select_due (db w') t)) /\
    jobs w' = jobs w
  else trigger_notification E sid w = (Raise TimestampError, w).
Proof.
  intros Hl. cbv zeta.
  destruct (fromtimestamp_ok E (Db.when_ts r)) eqn:Hok.
  - destruct (dispatch_existing E w sid r Hl Hok)
      as (H1 & H2 & H3 & H4 & H5 & H6 & H7 & _).
    repeat (split; [assumption|]). assumption.
  - now rewrite trigger_notification_run, Hl, Hok.
Qed.

Lemma trigger_notification_marks_delivered_witness :
  (let w' := exec (trigger_notification bot_down_env 2) delivered_world in
   fst (trigger_notification bot_down_env 2 delivered_world) = Ok tt /\
   spoken (trace w') = ["Reminder for Bob: take pills at 200. "] /\
   tg_calls w' = 1%nat /\
   Db.lookup (db w') 2 = Some (Db.mk_row 2 "bob" "take pills" "" 200 1) /\
   (forall i, i <> 2 -> Db.lookup (db w') i = Db.lookup (db delivered_world) i) /\
   (forall t, ~ In 2 (Db.select_due (db w') t)) /\
   jobs w' = jobs delivered_world) /\
  trigger_notification bot_down_env 1 far_world
  = (Raise TimestampError, far_world).
Proof.
  split.
  - apply (trigger_notification_marks_delivered bot_down_env delivered_world 2
             (Db.mk_row 2 "bob" "take pills" "" 200 0)).
    reflexivity.
  - apply (trigger_notification_marks_delivered bot_down_env far_world 1
             (Db.mk_row 1 "alice" "far away" "" 1000000000000000000 0)).
    reflexivity.
Defined.

(** X7: handed an id under which there is no record, the dispatcher returns
    normally and leaves the world exactly as it was: nothing is spoken, no
    Bot API call is made, nothing is written. *)
Theorem trigger_notification_unknown_id (E : env) (w : world) (sid : Z) :
  Db.lookup (db w) sid = None ->
  trigger_notification E sid w = (Ok tt, w).
Proof. intros H. now rewrite trigger_notification_run, H. Qed.

Lemma trigger_notification_unknown_id_witness :
  trigger_notification bot_up_env 7 delivered_world = (Ok tt, delivered_world).
Proof.
  apply (trigger_notification_unknown_id bot_up_env delivered_world 7).
  reflexivity.
Defined.

(** ** The sweeper *)

(** X8: one run of the sweeper never raises, leaves store, clock and trace as
    they are, and appends to the job store one immediate job without explicit
    id for each id that is due and undelivered at the current clock -- those
    ids and no others; with nothing due it changes nothing at all. *)
Theorem poll_pending_schedules_queues_due (w : world) :
  let w' := exec poll_pending_schedules w in
  fst (poll_pending_schedules w) = Ok tt /\
  db w' = db w /\ clock w' = clock w /\ trace w' = trace w /\
  (exists new,
     jobs w' = (jobs w ++ new)%list /\
     Forall (fun j => job_id j = None /\ job_trigger j = RunNow) new /\
     map job_arg new = Db.select_due (db w) (clock w) /\
     forall i, In i (map job_arg new) <->
       exists r, In r (Db.rows (db w)) /\ Db.id r = i
                 /\ Db.when_ts r <= clock w /\ Db.notified r = 0) /\
  (Db.select_due (db w) (clock w) = [] -> w' = w).
Proof.
  cbv zeta. unfold exec. rewrite poll_pending_schedules_run. cbn [fst snd].
  cbn [db clock trace jobs]. repeat split.
  - exists (map (mk_job None RunNow) (Db.select_due (db w) (clock w))).
    assert (Hargs : forall l, map job_arg (map (mk_job None RunNow) l) = l).
    { intros l. rewrite map_map. apply map_id. }
    split; [reflexivity|]. split; [|split].
    + apply Forall_map, Forall_forall. intros; split; reflexivity.
    + apply Hargs.
    + intros i. rewrite Hargs. apply DbFacts.select_due_iff.
  - intros ->. cbn [map]. rewrite app_nil_r. now destruct w.
Qed.

(** Firing one immediate job per id of [ids], when each id has a record and
    every stored time can be converted. *)
Lemma fire_all (E : env) (ids : list Z) (w : world) :
  (forall r, In r (Db.rows (db w)) -> fromtimestamp_ok E (Db.when_ts r) = true) ->
  (forall i, In i ids -> Db.lookup (db w) i <> None) ->
  let w' := exec (for_each (map (mk_job None RunNow) ids) (fire E)) w in
  fst (for_each (map (mk_job None RunNow) ids) (fire E) w) = Ok tt /\
  db w' = fold_left Db.update_notified ids (db w) /\
  jobs w' = jobs w /\
  spoken (trace w')
  = (spoken (trace w)
       ++ map (fun i => match Db.lookup (db w) i with
                        | Some r => row_message E r
                        | None => ""
                        end) ids)%list.
Proof.
  revert w; induction ids as [|a ids IH]; intros w Hok Hex; cbv zeta.
  - cbn. now rewrite app_nil_r.
  - destruct (Db.lookup (db w) a) as [r|] eqn:Hl;
      [|elim (Hex a); [now left | exact Hl]].
    assert (Hr : fromtimestamp_ok E (Db.when_ts r) = true)
      by (apply Hok; now apply lookup_id in Hl).
    destruct (dispatch_existing E w a r Hl Hr)
      as (T1 & T2 & _ & _ & _ & _ & T7 & Tdb).
    cbn [map for_each]. unfold exec, bind, fire. cbn [job_arg].
    unfold exec in T2, T7, Tdb.
    destruct (trigger_notification E a w) as [[[]|e] w1];
      cbn [fst snd] in *; [|discriminate].
    assert (Hok1 : forall r, In r (Db.rows (db w1)) ->
                             fromtimestamp_ok E (Db.when_ts r) = true).
    { intros x Hx. rewrite Tdb in Hx. cbn in Hx.
      apply in_map_iff in Hx as (x0 & <- & Hx0).
      specialize (Hok x0 Hx0). unfold Db.set_notified.
      now destruct (Db.id x0 =? a). }
    assert (Hex1 : forall i, In i ids -> Db.lookup (db w1) i <> None).
    { intros i Hi. rewrite Tdb, lookup_update_notified.
      specialize (Hex i (or_intror Hi)).
      now destruct (Db.lookup (db w) i). }
    destruct (IH w1 Hok1 Hex1) as (I1 & I2 & I3 & I4). unfold exec, fire in *.
    split; [exact I1|]. split; [now rewrite I2, Tdb|].
    split; [now rewrite I3|].
    rewrite I4, T2, <- app_assoc. cbn [app map]. rewrite Hl. do 2 f_equal.
    apply map_ext. intros i. rewrite Tdb, lookup_update_notified.
    destruct (Db.lookup (db w) i); [|reflexivity].
    cbn [option_map]. apply row_message_set_notified.
Qed.

Lemma fold_update_due_subset (ids : list Z) (t : Db.table) (now_ts i : Z) :
  In i (Db.select_due (fold_left Db.update_notified ids t) now_ts) ->
  In i (Db.select_due t now_ts).
Proof.
  revert t; induction ids as [|a ids IH]; intros t; cbn [fold_left];
    [trivial|].
  intros H. apply IH in H. now apply DbFacts.update_notified_due_subset in H.
Qed.

Lemma fold_update_not_due (ids : list Z) (t : Db.table) (now_ts i : Z) :
  In i ids ->
  ~ In i (Db.select_due (fold_left Db.update_notified ids t) now_ts).
Proof.
  revert t; induction ids as [|a ids IH]; intros t Hin; [contradiction|].
  cbn [fold_left]. destruct Hin as [->|Hin]; [|now apply IH].
  intros H. apply fold_update_due_subset in H.
  now apply DbFacts.update_notified_not_due in H.
Qed.

(** X9: in a store all of whose times [datetime.fromtimestamp] converts, when
    the jobs queued by one sweep have fired, one after the other, each queued
    job has spoken the reminder of its record once, in the order queued, none
    of the swept ids is due again at any later time, and nothing that was due
    at the time of the sweep is still due: a second sweep at that clock would
    queue nothing. *)
Theorem swept_records_fire_once (E : env) (w : world) :
  (forall r, In r (Db.rows (db w)) ->
             fromtimestamp_ok E (Db.when_ts r) = true) ->
  let ids := Db.select_due (db w) (clock w) in
  let run := poll_pending_schedules ;;
             for_each (map (mk_job None RunNow) ids) (fire E) in
  let w' := exec run w in
  fst (run w) = Ok tt /\
  spoken (trace w')
  = (spoken (trace w)
       ++ map (fun i => match Db.lookup (db w) i with
                        | Some r => row_message E r
                        | None => ""
                        end) ids)%list /\
  (forall i t, In i ids -> ~ In i (Db.select_due (db w') t)) /\
  Db.select_due (db w') (clock w) = [].
Proof.
  intros Hok. cbv zeta. unfold exec, bind. rewrite poll_pending_schedules_run.
  set (ids := Db.select_due (db w) (clock w)).
  set (w0 := mk_world _ _ _ _ _ _).
  assert (Hex : forall i, In i ids -> Db.lookup (db w0) i <> None).
  { intros i Hi. apply DbFacts.select_due_iff in Hi as (r & Hin & Hid & _).
    unfold Db.lookup. cbn [w0 db]. intros Hn.
    pose proof (find_none _ _ Hn r Hin) as Hf. cbn in Hf. lia. }
  destruct (fire_all E ids w0 Hok Hex) as (F1 & F2 & _ & F4).
  unfold exec in F2, F4.
  set (w' := snd (for_each (map (mk_job None RunNow) ids) (fire E) w0)) in *.
  split; [exact F1|]. split; [exact F4|].
  assert (Hnot : forall i t, In i ids -> ~ In i (Db.select_due (db w') t)).
  { intros i t Hi. rewrite F2. now apply fold_update_not_due. }
  split; [exact Hnot|].
  destruct (Db.select_due (db w') (clock w)) as [|i l] eqn:Hd; [reflexivity|].
  exfalso. apply (Hnot i (clock w)).
  - assert (Hi : In i (Db.select_due (db w') (clock w)))
      by (rewrite Hd; now left).
    rewrite F2 in Hi. now apply fold_update_due_subset in Hi.
  - rewrite Hd. now left.
Qed.

Lemma swept_records_fire_once_witness :
  (let ids := Db.select_due (db busy_world) (clock busy_world) in
   let run := poll_pending_schedules ;;
              for_each (map (mk_job None RunNow) ids) (fire bot_up_env) in
   let w' := exec run busy_world in
   fst (run busy_world) = Ok tt /\
   spoken (trace w')
   = (spoken (trace busy_world)
        ++ map (fun i => match Db.lookup (db busy_world) i with
                         | Some r => row_message bot_up_env r
                         | None => ""
                         end) ids)%list /\
   (forall i t, In i ids -> ~ In i (Db.select_due (db w') t)) /\
   Db.select_due (db w') (clock busy_world) = []) /\
  Db.select_due (db busy_world) (clock busy_world) = [2; 4; 5] /\
  spoken (trace (exec (poll_pending_schedules ;;
                       for_each (map (mk_job None RunNow) [2; 4; 5])
                                (fire bot_up_env)) busy_world))
  = ["Reminder for Bob: gym at 150. ";
     "Reminder for Alice: pay rent at 100. ";
     "Reminder for Alice: water plants at 50. "].
Proof.
  split; [|repeat split; reflexivity].
  apply (swept_records_fire_once bot_up_env busy_world).
  intros r Hr. cbn in Hr.
  repeat (destruct Hr as [<-|Hr]; [reflexivity|]). contradiction.
Defined.

(** ** Nothing is deleted, nothing is un-delivered *)

Lemma row_kept_refl (r : Db.row) : row_kept r r.
Proof. split; [reflexivity | now left]. Qed.

Lemma row_kept_trans (a b c : Db.row) :
  row_kept a b -> row_kept b c -> row_kept a c.
Proof.
  intros [C1 N1] [C2 N2]. split; [congruence|].
  destruct N2 as [N2|N2]; [|now right].
  destruct N1 as [N1|N1]; [left | right]; congruence.
Qed.

Lemma Forall2_row_kept_refl (l : list Db.row) : Forall2 row_kept l l.
Proof. induction l; constructor; [apply row_kept_refl | assumption]. Qed.

Lemma Forall2_row_kept_trans (a b c : list Db.row) :
  Forall2 row_kept a b -> Forall2 row_kept b c -> Forall2 row_kept a c.
Proof.
  intros Hab; revert c; induction Hab as [|x y a b Hxy _ IH]; intros c Hbc.
  - inversion Hbc. constructor.
  - inversion Hbc as [|? z ? c' Hyz Hbc']; subst.
    constructor; [now apply row_kept_trans with y | now apply IH].
Qed.

Lemma history_kept_refl (t : Db.table) : history_kept t t.
Proof.
  exists (Db.rows t), []. rewrite app_nil_r.
  repeat split; [apply Forall2_row_kept_refl | lia].
Qed.

Lemma history_kept_trans (a b c : Db.table) :
  history_kept a b -> history_kept b c -> history_kept a c.
Proof.
  intros (k1 & a1 & R1 & F1 & S1) (k2 & a2 & R2 & F2 & S2).
  rewrite R1 in F2. apply Forall2_app_inv_l in F2 as (k2a & k2b & Fa & Fb & ->).
  exists k2a, (k2b ++ a2)%list. split; [now rewrite R2, app_assoc|].
  split; [now apply Forall2_row_kept_trans with k1 | lia].
Qed.

Lemma history_kept_insert (t : Db.table) (u ti n : string) (wts : Z) :
  history_kept t (fst (Db.insert t u ti n wts)).
Proof.
  exists (Db.rows t), [Db.mk_row (Db.seq t + 1) u ti n wts 0].
  repeat split; [apply Forall2_row_kept_refl | simpl; lia].
Qed.

Lemma history_kept_update_notified (t : Db.table) (sid : Z) :
  history_kept t (Db.update_notified t sid).
Proof.
  exists (map (Db.set_notified sid) (Db.rows t)), [].
  rewrite app_nil_r. repeat split; [|simpl; lia].
  induction (Db.rows t) as [|r l IH]; simpl; constructor; [|exact IH].
  split; [symmetry; apply set_notified_core|].
  unfold Db.set_notified. destruct (Db.id r =? sid); simpl; [now right | now left].
Qed.

(** What stays readable: a record found under an id before is found under it
    afterwards, with the same columns and a delivery flag that was kept or
    raised; and the table has not shrunk. *)
Lemma history_kept_lookup (t t' : Db.table) (i : Z) (r : Db.row) :
  history_kept t t' -> Db.lookup t i = Some r ->
  exists r', Db.lookup t' i = Some r' /\ row_kept r r'.
Proof.
  intros (kept & added & R & F & _). unfold Db.lookup. rewrite R. clear R.
  induction F as [|x y l l' Hxy _ IH]; simpl; [discriminate|].
  assert (Hid : Db.id y = Db.id x).
  { destruct Hxy as [Hc _]. unfold row_core in Hc. congruence. }
  rewrite Hid. destruct (Db.id x =? i); [|exact IH].
  intros [= <-]. now exists y.
Qed.

Lemma history_kept_length (t t' : Db.table) :
  history_kept t t' ->
  (List.length (Db.rows t) <= List.length (Db.rows t'))%nat.
Proof.
  intros (kept & added & R & F & _). rewrite R, length_app.
  apply Forall2_length in F. lia.
Qed.

Lemma handle_text_history (E : env) (user text : string) (w : world) :
  history_kept (db w) (db (exec (handle_text E user text) w)).
Proof.
  unfold handle_text.
  destruct (parse_intent_simple (Some text)) eqn:Hp.
  - destruct (handle_add_schedule_effect E user text w) as [_ H].
    cbv zeta in H.
    pose proof (history_kept_insert (db w) user text "") as Hins.
    destruct (dateparser_parse E text) as [d|].
    + destruct H as (_ & _ & _ & -> & _). apply (Hins d).
    + destruct H as [_ H].
      destruct (dateparser_parse E (heard E (listens w))) as [d|].
      * destruct H as (_ & _ & -> & _). apply (Hins d).
      * destruct H as (_ & _ & -> & _). apply history_kept_refl.
  - now elim (show_schedule_unreachable (Some text)).
  - apply history_kept_refl.
Qed.

Lemma session_loop_history
    (E : env) (user : string) (T0 timeout : Z) (fuel : nat) (w : world) :
  history_kept (db w) (db (exec (session_loop E fuel user T0 timeout) w)).
Proof.
  revert w; induction fuel as [|fuel IH]; intros w;
    [apply history_kept_refl|].
  unfold exec. rewrite session_loop_unfold. cbv zeta.
  destruct (clock w - T0 <? timeout); [|apply history_kept_refl].
  destruct (heard E (listens w) =? "")%string; [apply history_kept_refl|].
  set (w1 := exec (transcribe_audio_from_mic_demo E TurnListen) w).
  pose proof (handle_text_history E user (heard E (listens w)) w1) as H1.
  unfold exec in H1.
  destruct (handle_text E user (heard E (listens w)) w1) as [[[]|e] w2];
    cbn [snd] in *; [|exact H1].
  apply history_kept_trans with (db w2); [exact H1 | apply IH].
Qed.

Lemma on_unknown_face_db (E : env) (photo : list Byte.byte) (w : world) :
  db (exec (on_unknown_face E photo) w) = db w /\
  jobs (exec (on_unknown_face E photo) w) = jobs w.
Proof.
  unfold on_unknown_face, save_file, exec.
  cbv beta iota zeta delta [bind try_except time_time gets modify].
  cbn [clock emit].
  destruct (file_write_ok E (unknown_face_filename (clock w)));
    cbv beta iota delta [ret raise]; [|split; reflexivity].
  rewrite send_photo_to_owner_run.
  destruct (telegram_bot E); cbn [negb]; cbv beta iota zeta.
  - destruct (telegram_ok E (tg_calls w)) eqn:Hok; cbn [tg_calls emit];
      rewrite ?Hok; rewrite speak_run; split; reflexivity.
  - rewrite speak_run; split; reflexivity.
Qed.

(** X10: no entry point of the module deletes, reorders or rewrites a stored
    record.  After the dispatcher, a conversation session, the sweeper or the
    unknown-subject handler, the table holds every earlier row in place with
    the columns it was created with, a delivery flag that was kept or set to
    1, and the id counter has not gone back; so a record once readable under
    an id stays readable under it. *)
Theorem history_is_kept (E : env) (w : world) :
  (forall sid,
      history_kept (db w) (db (exec (trigger_notification E sid) w))) /\
  (forall fuel user timeout,
      history_kept (db w)
        (db (exec (conversation_session E fuel user timeout) w))) /\
  history_kept (db w) (db (exec poll_pending_schedules w)) /\
  (forall photo,
      history_kept (db w) (db (exec (on_unknown_face E photo) w))) /\
  (forall t', history_kept (db w) t' ->
      (List.length (Db.rows (db w)) <= List.length (Db.rows t'))%nat /\
      forall i r, Db.lookup (db w) i = Some r ->
        exists r', Db.lookup t' i = Some r' /\ row_core r' = row_core r
                   /\ (Db.notified r' = Db.notified r \/ Db.notified r' = 1)).
Proof.
  repeat split.
  - intros sid. destruct (trigger_notification_db E sid w) as [-> | ->];
      [apply history_kept_update_notified | apply history_kept_refl].
  - intros fuel user timeout.
    change (exec (conversation_session E fuel user timeout) w)
      with (exec (session_loop E fuel user
                    (clock (exec (speak E (greeting user)) w)) timeout)
              (exec (speak E (greeting user)) w)).
    apply (session_loop_history E user _ timeout fuel
             (exec (speak E (greeting user)) w)).
  - unfold exec. rewrite poll_pending_schedules_run. apply history_kept_refl.
  - intros photo. destruct (on_unknown_face_db E photo w) as [-> _].
    apply history_kept_refl.
  - now apply history_kept_length.
  - intros i r Hl. destruct (history_kept_lookup _ _ i r H Hl)
      as (r' & Hl' & Hc & Hn).
    exists r'. repeat split; [exact Hl' | now symmetry | exact Hn].
Qed.

(** ** What a conversation session writes *)

Lemma for_each_speak_tg (E : env) {A : Type} (f : A -> string) (l : list A)
    (w : world) :
  tg_calls (exec (for_each l (fun x => speak E (f x))) w) = tg_calls w.
Proof.
  revert w; induction l as [|x l IH]; intros w; [reflexivity|].
  cbn [for_each]. unfold exec, bind. rewrite speak_run. cbv beta iota.
  unfold exec in IH. now rewrite IH.
Qed.

Lemma handle_text_tg_calls (E : env) (user text : string) (w : world) :
  tg_calls (exec (handle_text E user text) w) = tg_calls w.
Proof.
  unfold handle_text.
  destruct (parse_intent_simple (Some text)) eqn:Hp.
  - unfold handle_add_schedule, extract_datetime_from_text, speak,
      transcribe_audio_from_mic_demo, add_schedule, scheduler_add_job,
      Db.insert.
    run_m. destruct (dateparser_parse E text) as [d|]; run_m; [reflexivity|].
    destruct (dateparser_parse E (heard E (listens w))); run_m; reflexivity.
  - now elim (show_schedule_unreachable (Some text)).
  - reflexivity.
Qed.

Lemma created_nothing (user : string) (w w' : world) :
  db w' = db w -> jobs w' = jobs w ->
  exists new,
    Db.rows (db w') = (Db.rows (db w) ++ new)%list /\
    Db.seq (db w') = Db.seq (db w) + Z.of_nat (List.length new) /\
    jobs w' = (jobs w ++ map dated_job new)%list /\
    Forall (fun r => Db.user_id r = user /\ Db.notes r = "" /\
                     Db.notified r = 0 /\ Db.seq (db w) < Db.id r) new.
Proof.
  intros -> ->. exists []. cbn. rewrite !app_nil_r.
  repeat split; [lia | constructor].
Qed.

(** One turn stores at most one record: for this user, titled with the
    utterance, with empty notes, undelivered, under the next id, and with its
    dated job appended to the job store. *)
Lemma handle_text_created (E : env) (user text : string) (w : world) :
  let w' := exec (handle_text E user text) w in
  exists new,
    Db.rows (db w') = (Db.rows (db w) ++ new)%list /\
    Db.seq (db w') = Db.seq (db w) + Z.of_nat (List.length new) /\
    jobs w' = (jobs w ++ map dated_job new)%list /\
    Forall (fun r => Db.user_id r = user /\ Db.notes r = "" /\
                     Db.notified r = 0 /\ Db.seq (db w) < Db.id r) new.
Proof.
  cbv zeta.
  assert (Hone : forall d w', reminder_created user text d w w' ->
            exists new,
              Db.rows (db w') = (Db.rows (db w) ++ new)%list /\
              Db.seq (db w') = Db.seq (db w) + Z.of_nat (List.length new) /\
              jobs w' = (jobs w ++ map dated_job new)%list /\
              Forall (fun r => Db.user_id r = user /\ Db.notes r = "" /\
                               Db.notified r = 0 /\ Db.seq (db w) < Db.id r)
                     new).
  { intros d w' [Hdb Hj].
    exists [Db.mk_row (Db.seq (db w) + 1) user text "" d 0].
    rewrite Hdb, Hj. cbn. repeat split. repeat constructor; cbn; lia. }
  unfold handle_text.
  destruct (parse_intent_simple (Some text)) eqn:Hp.
  - destruct (handle_add_schedule_effect E user text w) as [_ H].
    cbv zeta in H.
    destruct (dateparser_parse E text) as [d|].
    + destruct H as (_ & _ & _ & Hc). now apply (Hone d).
    + destruct H as [_ H].
      destruct (dateparser_parse E (heard E (listens w))) as [d|].
      * destruct H as (_ & _ & Hc). now apply (Hone d).
      * destruct H as (_ & _ & Hd & Hj). now apply created_nothing.
  - now elim (show_schedule_unreachable (Some text)).
  - now apply created_nothing.
Qed.

Lemma session_loop_created
    (E : env) (user : string) (T0 timeout : Z) (fuel : nat) (w : world) :
  let w' := exec (session_loop E fuel user T0 timeout) w in
  tg_calls w' = tg_calls w /\
  exists new,
    Db.rows (db w') = (Db.rows (db w) ++ new)%list /\
    Db.seq (db w') = Db.seq (db w) + Z.of_nat (List.length new) /\
    jobs w' = (jobs w ++ map dated_job new)%list /\
    Forall (fun r => Db.user_id r = user /\ Db.notes r = "" /\
                     Db.notified r = 0 /\ Db.seq (db w) < Db.id r) new.
Proof.
  cbv zeta. revert w; induction fuel as [|fuel IH]; intros w.
  { split; [reflexivity | now apply created_nothing]. }
  unfold exec. rewrite session_loop_unfold. cbv zeta.
  destruct (clock w - T0 <? timeout);
    [|split; [reflexivity | now apply created_nothing]].
  destruct (heard E (listens w) =? "")%string;
    [split; [reflexivity | now apply created_nothing]|].
  set (w1 := exec (transcribe_audio_from_mic_demo E TurnListen) w).
  assert (D1 : db w1 = db w) by reflexivity.
  assert (J1 : jobs w1 = jobs w) by reflexivity.
  assert (G1 : tg_calls w1 = tg_calls w) by reflexivity.
  pose proof (handle_text_created E user (heard E (listens w)) w1) as H1.
  pose proof (handle_text_tg_calls E user (heard E (listens w)) w1) as T1.
  cbv zeta in H1. unfold exec in H1, T1. rewrite D1, J1 in H1.
  rewrite G1 in T1.
  destruct (handle_text E user (heard E (listens w)) w1) as [[[]|e] w2];
    cbn [snd] in *; [|split; assumption].
  destruct H1 as (n1 & R1 & S1 & K1 & F1).
  destruct (IH w2) as (T2 & n2 & R2 & S2 & K2 & F2).
  unfold exec in *. split; [now rewrite T2, T1|].
  exists (n1 ++ n2)%list. rewrite R2, R1, S2, S1, K2, K1.
  rewrite map_app, !app_assoc, length_app.
  split; [reflexivity|]. split; [lia|]. split; [reflexivity|].
  apply Forall_app. split; [exact F1|].
  eapply Forall_impl; [|exact F2]. cbn. intros r (A & B & C & D).
  repeat split; try assumption. lia.
Qed.

Lemma conversation_session_records_aux
    (E : env) (fuel : nat) (user : string) (timeout : Z) (w : world) :
  let w' := exec (conversation_session E fuel user timeout) w in
  exists new,
    Db.rows (db w') = (Db.rows (db w) ++ new)%list /\
    Db.seq (db w') = Db.seq (db w) + Z.of_nat (List.length new) /\
    jobs w' = (jobs w ++ map dated_job new)%list /\
    Forall (fun r => Db.user_id r = user /\ Db.notes r = "" /\
                     Db.notified r = 0 /\ Db.seq (db w) < Db.id r) new.
Proof.
  cbv zeta.
  change (exec (conversation_session E fuel user timeout) w)
    with (exec (session_loop E fuel user
                  (clock (exec (speak E (greeting user)) w)) timeout)
            (exec (speak E (greeting user)) w)).
  destruct (session_loop_created E user
              (clock (exec (speak E (greeting user)) w)) timeout fuel
              (exec (speak E (greeting user)) w)) as [_ H].
  exact H.
Qed.





(** ** Job ids never collide *)

Lemma job_ids_app (a b : list job) :
  job_ids (a ++ b) = (job_ids a ++ job_ids b)%list.
Proof. apply flat_map_app. Qed.

Lemma job_ids_dated (l : list Db.row) :
  job_ids (map dated_job l)
  = map (fun r => "reminder-" ++ PyStr.str_of_Z (Db.id r)) l.
Proof.
  unfold job_ids. induction l as [|r l IH]; [reflexivity|].
  cbn [map flat_map dated_job job_id app]. now rewrite IH.
Qed.

Lemma job_ids_In (js : list job) (s : string) :
  In s (job_ids js) -> exists j, In j js /\ job_id j = Some s.
Proof.
  unfold job_ids. rewrite in_flat_map. intros (j & Hj & Hs).
  exists j. split; [exact Hj|].
  destruct (job_id j); cbn in Hs; [|contradiction].
  destruct Hs as [->|[]]. reflexivity.
Qed.

Lemma reminder_id_inj (a b : Z) :
  "reminder-" ++ PyStr.str_of_Z a = "reminder-" ++ PyStr.str_of_Z b -> a = b.
Proof. intros H. now apply str_of_Z_inj, (append_inj_l "reminder-"). Qed.

(** X13: explicit job ids stay unique.  If the store satisfies the
    primary-key invariant and every job with an explicit id is the dated job
    of an id the store has handed out, no id occurring twice, then the same
    holds after a conversation session: [add_job] is never asked to add an id
    that is already in the job store. *)
Theorem conversation_session_job_ids
    (E : env) (fuel : nat) (user : string) (timeout : Z) (w : world) :
  Db.well_formed (db w) -> jobs_keyed w ->
  let w' := exec (conversation_session E fuel user timeout) w in
  Db.well_formed (db w') /\ jobs_keyed w'.
Proof.
  intros Hwf [Hnd Hall]. cbv zeta.
  assert (Hwf' : Db.well_formed
                   (db (exec (conversation_session E fuel user timeout) w))).
  { change (exec (conversation_session E fuel user timeout) w)
      with (exec (session_loop E fuel user
                    (clock (exec (speak E (greeting user)) w)) timeout)
              (exec (speak E (greeting user)) w)).
    now apply session_loop_well_formed. }
  split; [exact Hwf'|].
  destruct (conversation_session_records_aux E fuel user timeout w)
    as (new & R & S & J & F).
  destruct Hwf' as (Hnd' & _ & Hall').
  rewrite R in Hnd', Hall'. rewrite map_app in Hnd'.
  apply Forall_app in Hall' as [_ Hnew].
  unfold jobs_keyed. rewrite J, job_ids_app, job_ids_dated. split.
  - apply NoDup_app; [exact Hnd | | ].
    + apply NoDup_app_remove_l in Hnd'.
      clear -Hnd'. induction new as [|r l IH]; cbn; [constructor|].
      inversion Hnd' as [|? ? Hr Hl]; subst. constructor; [|now apply IH].
      intros Hin. apply in_map_iff in Hin as (r' & He & Hr').
      apply reminder_id_inj in He. apply Hr. rewrite <- He.
      now apply in_map.
    + intros s Hs Hs'. apply job_ids_In in Hs as (j & Hj & Hid).
      rewrite Forall_forall in Hall. specialize (Hall j Hj).
      rewrite Hid in Hall. destruct Hall as (sid & -> & Hsid).
      apply in_map_iff in Hs' as (r & He & Hr).
      apply reminder_id_inj in He.
      rewrite Forall_forall in F. destruct (F r Hr) as (_ & _ & _ & Hlt). lia.
  - apply Forall_app. split.
    + eapply Forall_impl; [|exact Hall]. cbn. intros j.
      destruct (job_id j); [|trivial].
      intros (sid & -> & Hsid). exists sid. split; [reflexivity | lia].
    + apply Forall_map, Forall_forall. intros r Hr. cbn.
      exists (Db.id r). split; [reflexivity|].
      rewrite Forall_forall in Hnew. now apply Hnew.
Qed.

Lemma conversation_session_job_ids_witness :
  let E := scripted_env ["remind me at nine"; "9am tomorrow";
                         "add milk 9am tomorrow"] 1 1 nine_am false false in
  let w' := exec (conversation_session E 5 "bob" 90) armed_world in
  Db.well_formed (db w') /\ jobs_keyed w'.
Proof.
  cbv zeta.
  apply (conversation_session_job_ids
           (scripted_env ["remind me at nine"; "9am tomorrow";
                          "add milk 9am tomorrow"] 1 1 nine_am false false)
           5 "bob" 90 armed_world).
  - repeat split; simpl; [|lia|].
    + repeat constructor; simpl; intuition discriminate.
    + repeat constructor; simpl; lia.
  - split.
    + repeat constructor. simpl. tauto.
    + repeat constructor. cbn. exists 2. split; [reflexivity | lia].
Defined.

(** ** The turn bound is not part of the behaviour *)

Lemma session_loop_fuel_step
    (E : env) (user : string) (T0 timeout : Z) :
  (forall n, 1 <= listen_secs E n) ->
  (forall m, 0 <= speak_secs E m) ->
  forall (fuel : nat) (w : world),
    (Z.to_nat (T0 + timeout - clock w) < fuel)%nat ->
    session_loop E (S fuel) user T0 timeout w
    = session_loop E fuel user T0 timeout w.
Proof.
  intros Hl Hs fuel. induction fuel as [|fuel IH]; intros w Hf; [lia|].
  rewrite (session_loop_unfold E (S fuel)), (session_loop_unfold E fuel).
  cbv zeta.
  destruct (clock w - T0 <? timeout) eqn:Hlt; [|reflexivity].
  apply Z.ltb_lt in Hlt.
  destruct (heard E (listens w) =? "")%string; [reflexivity|].
  set (w1 := exec (transcribe_audio_from_mic_demo E TurnListen) w).
  assert (H1 : clock w1 = clock w + listen_secs E (listens w)) by reflexivity.
  pose proof (Hl (listens w)) as Hl1.
  pose proof (handle_text_clock E Hl Hs user (heard E (listens w)) w1) as Hc.
  unfold exec in Hc.
  destruct (handle_text E user (heard E (listens w)) w1) as [[[]|e] w2];
    cbn [snd] in *; [|reflexivity].
  apply IH. lia.
Qed.

Lemma turn_listens_app (a b : list event) :
  turn_listens (a ++ b) = (turn_listens a ++ turn_listens b)%list.
Proof. apply filter_app. Qed.

Lemma turn_listens_none (evs : list event) :
  Forall not_turn_listen evs -> turn_listens evs = [].
Proof.
  induction 1 as [|e l He _ IH]; [reflexivity|].
  destruct e as [| [] | | | |]; cbn in *; try contradiction; exact IH.
Qed.

Lemma session_loop_listen_bound
    (E : env) (user : string) (T0 timeout : Z) :
  (forall n, 1 <= listen_secs E n) ->
  (forall m, 0 <= speak_secs E m) ->
  forall (fuel : nat) (w : world),
    (List.length (turn_listens
                    (trace (exec (session_loop E fuel user T0 timeout) w)))
     <= List.length (turn_listens (trace w))
        + Z.to_nat (T0 + timeout - clock w))%nat.
Proof.
  intros Hl Hs fuel. induction fuel as [|fuel IH]; intros w; [cbn; lia|].
  unfold exec. rewrite session_loop_unfold. cbv zeta.
  destruct (clock w - T0 <? timeout) eqn:Hlt; [|cbn; lia].
  apply Z.ltb_lt in Hlt.
  set (text := heard E (listens w)).
  set (w1 := exec (transcribe_audio_from_mic_demo E TurnListen) w).
  assert (Ht1 : trace w1
                = (trace w ++ [EvListen TurnListen (clock w) text])%list)
    by reflexivity.
  assert (H1 : clock w1 = clock w + listen_secs E (listens w)) by reflexivity.
  pose proof (Hl (listens w)) as Hl1.
  assert (Hn1 : List.length (turn_listens (trace w1))
                = S (List.length (turn_listens (trace w)))).
  { rewrite Ht1, turn_listens_app, length_app. cbn. lia. }
  destruct (text =? "")%string; [cbn [snd]; lia|].
  pose proof (handle_text_clock E Hl Hs user text w1) as Hc.
  destruct (handle_text_effect E user text w1) as (evs & _ & H2 & H3).
  unfold exec in Hc, H2.
  destruct (handle_text E user text w1) as [[[]|e] w2]; cbn [snd] in *.
  - specialize (IH w2). unfold exec in IH.
    rewrite H2, turn_listens_app, (turn_listens_none _ H3), app_nil_r in IH.
    lia.
  - rewrite H2, turn_listens_app, (turn_listens_none _ H3), app_nil_r. lia.
Qed.

(** X14: when every listen takes at least one tick and speaking takes no
    negative time, the session's loop always ends: with a timeout of [t]
    ticks it is left after at most [t] top-of-turn listens, and a larger
    bound on the number of turns changes nothing in the outcome. *)
Theorem conversation_session_ends_within
    (E : env) (user : string) (timeout : Z) (w : world) (fuel : nat) :
  (forall n, 1 <= listen_secs E n) ->
  (forall m, 0 <= speak_secs E m) ->
  (Z.to_nat timeout < fuel)%nat ->
  fst (conversation_session E fuel user timeout w) = Ok true /\
  conversation_session E fuel user timeout w
  = conversation_session E (S (Z.to_nat timeout)) user timeout w /\
  (List.length (turn_listens
                  (trace (exec (conversation_session E fuel user timeout) w)))
   <= List.length (turn_listens (trace w)) + Z.to_nat timeout)%nat.
Proof.
  intros Hl Hs Hf.
  assert (Hc : forall f, conversation_session E f user timeout w
               = session_loop E f user
                   (clock (exec (speak E (greeting user)) w)) timeout
                   (exec (speak E (greeting user)) w)) by reflexivity.
  set (w0 := exec (speak E (greeting user)) w) in *.
  split; [|split].
  - rewrite Hc. apply session_loop_ends; [assumption | assumption | lia].
  - rewrite !Hc. induction fuel as [|fuel IH]; [lia|].
    destruct (Nat.eq_dec fuel (Z.to_nat timeout)) as [->|Hne];
      [reflexivity|].
    rewrite session_loop_fuel_step by (assumption || lia).
    apply IH. lia.
  - unfold exec at 1. rewrite Hc.
    pose proof (session_loop_listen_bound E user (clock w0) timeout Hl Hs
                  fuel w0) as Hb.
    unfold exec in Hb at 1.
    assert (Ht0 : turn_listens (trace w0) = turn_listens (trace w)).
    { subst w0. unfold exec. rewrite speak_run. cbn [snd advance emit trace].
      rewrite turn_listens_app. cbn. apply app_nil_r. }
    rewrite Ht0 in Hb.
    replace (clock w0 + timeout - clock w0) with timeout in Hb by lia.
    exact Hb.
Qed.

Lemma conversation_session_ends_within_witness :
  let E := scripted_env ["hello"; "how are you"; "bye"; "still here"] 30 1
             no_date false false in
  fst (conversation_session E 200 "alice" 90 world0) = Ok true /\
  conversation_session E 200 "alice" 90 world0
  = conversation_session E (S (Z.to_nat 90)) "alice" 90 world0 /\
  (List.length (turn_listens
                  (trace (exec (conversation_session E 200 "alice" 90) world0)))
   <= List.length (turn_listens (trace world0)) + Z.to_nat 90)%nat.
Proof.
  cbv zeta.
  apply (conversation_session_ends_within
           (scripted_env ["hello"; "how are you"; "bye"; "still here"] 30 1
              no_date false false) "alice" 90 world0 200).
  - intros n. cbn. lia.
  - intros m. cbn. lia.
  - cbn. lia.
Defined.

(** ** Edges of a session *)

(** X15: a session whose timeout is zero or negative only greets: it makes no
    listen at all; and a session whose first listen returns the empty text
    greets, listens once and ends.  Either way the loop is left normally and
    neither the store nor the job store is touched. *)
Theorem conversation_session_edges
    (E : env) (fuel : nat) (user : string) (timeout : Z) (w : world) :
  let greeted := exec (speak E (greeting user)) w in
  (timeout <= 0 ->
   conversation_session E (S fuel) user timeout w = (Ok true, greeted)) /\
  (0 < timeout -> heard E (listens w) = "" ->
   conversation_session E (S fuel) user timeout w
   = (Ok true, exec (transcribe_audio_from_mic_demo E TurnListen) greeted)) /\
  db greeted = db w /\ jobs greeted = jobs w /\
  db (exec (transcribe_audio_from_mic_demo E TurnListen) greeted) = db w /\
  jobs (exec (transcribe_audio_from_mic_demo E TurnListen) greeted) = jobs w.
Proof.
  cbv zeta.
  assert (Hc : conversation_session E (S fuel) user timeout w
               = session_loop E (S fuel) user
                   (clock (exec (speak E (greeting user)) w)) timeout
                   (exec (speak E (greeting user)) w)) by reflexivity.
  repeat split.
  - intros Ht. rewrite Hc, session_loop_unfold.
    replace (_ <? timeout) with false; [reflexivity|].
    symmetry. apply Z.ltb_ge. lia.
  - intros Ht Hh. rewrite Hc, session_loop_unfold.
    replace (_ <? timeout) with true by (symmetry; apply Z.ltb_lt; lia).
    cbv zeta.
    change (listens (exec (speak E (greeting user)) w)) with (listens w).
    now rewrite Hh.
Qed.

(** ** The chat branch *)

(** X16: an utterance whose lower-cased text contains none of "remind me",
    "schedule" and "add" is answered by the echo "I heard: <text>", with the
    text as heard: that one sentence is spoken, no further listen is made and
    neither the store nor the job store changes. *)
Theorem chat_turn_echo (E : env) (user text : string) (w : world) :
  (forall k, In k add_keywords -> ~ substring_of k (PyStr.lower text)) ->
  let w' := exec (handle_text E user text) w in
  fst (handle_text E user text w) = Ok tt /\
  trace w' = (trace w ++ [EvSpeak ("I heard: " ++ text)])%list /\
  listens w' = listens w /\ db w' = db w /\ jobs w' = jobs w.
Proof.
  intros Hno. cbv zeta.
  assert (Hi : parse_intent_simple (Some text) = chat_intent).
  { pose proof (parse_add_iff (Some text)) as Ha.
    pose proof (show_schedule_unreachable (Some text)) as Hs.
    destruct (parse_intent_simple (Some text)); [|now elim Hs|reflexivity].
    destruct (proj1 Ha eq_refl) as (k & Hk & Hsub). now elim (Hno k). }
  unfold handle_text, exec. rewrite Hi. repeat split.
Qed.

Lemma chat_turn_echo_witness :
  let w' := exec (handle_text bot_up_env "alice" "How are you?") delivered_world in
  fst (handle_text bot_up_env "alice" "How are you?" delivered_world) = Ok tt /\
  trace w' = (trace delivered_world ++ [EvSpeak "I heard: How are you?"])%list /\
  listens w' = listens delivered_world /\ db w' = db delivered_world /\
  jobs w' = jobs delivered_world.
Proof.
  apply (chat_turn_echo bot_up_env "alice" "How are you?" delivered_world).
  intros k Hk Hsub. apply contains_iff in Hsub.
  destruct Hk as [<-|[<-|[<-|[]]]]; vm_compute in Hsub; discriminate.
Defined.

(* ================================================================== *)
(** ** From creation to delivery *)

(** X22: a reminder stored with a time that has come, and that
    [datetime.fromtimestamp] converts, is picked up by the next sweep, and
    firing the job the sweep queued speaks the reminder with the user, title,
    time and notes it was stored with, and leaves it delivered: it is due at
    no time afterwards. *)
Theorem reminder_round_trip
    (E : env) (w : world) (u ti n : string) (wts : Z) :
  Db.well_formed (db w) ->
  wts <= clock w ->
  fromtimestamp_ok E wts = true ->
  let sid := Db.seq (db w) + 1 in
  let swept := exec (add_schedule u ti n wts ;; poll_pending_schedules) w in
  let fired := exec (fire E (mk_job None RunNow sid)) swept in
  In (mk_job None RunNow sid) (jobs swept) /\
  fst (fire E (mk_job None RunNow sid) swept) = Ok tt /\
  spoken (trace fired)
  = (spoken (trace w) ++ [reminder_message E u ti n wts])%list /\
  Db.lookup (db fired) sid = Some (Db.mk_row sid u ti n wts 1) /\
  forall t, ~ In sid (Db.select_due (db fired) t).
Proof.
  intros Hwf Hle Hok. cbv zeta.
  set (t1 := fst (Db.insert (db w) u ti n wts)).
  assert (Hsw : exec (add_schedule u ti n wts ;; poll_pending_schedules) w
                = mk_world (clock w) t1
                    (jobs w ++ map (mk_job None RunNow)
                                   (Db.select_due t1 (clock w)))
                    (listens w) (tg_calls w) (trace w)).
  { unfold exec, bind. rewrite add_schedule_run. cbv beta iota.
    now rewrite poll_pending_schedules_run. }
  rewrite Hsw. clear Hsw.
  set (swept := mk_world _ _ _ _ _ _).
  assert (Hdue : In (Db.seq (db w) + 1) (Db.select_due t1 (clock w)))
    by (apply (DbFacts.insert_due (db w) u ti n wts (clock w) Hle)).
  assert (Hl : Db.lookup (db swept) (Db.seq (db w) + 1)
               = Some (Db.mk_row (Db.seq (db w) + 1) u ti n wts 0))
    by (apply (lookup_insert_new (db w) u ti n wts Hwf)).
  destruct (dispatch_existing E swept _ _ Hl Hok)
    as (D1 & D2 & _ & D4 & _ & D6 & _).
  split.
  - cbn [swept jobs]. apply in_or_app. right.
    now apply (in_map (mk_job None RunNow)).
  - unfold fire. cbn [job_arg].
    split; [exact D1|]. split; [exact D2|]. split; [exact D4 | exact D6].
Qed.

Lemma reminder_round_trip_witness :
  let swept := exec (add_schedule "alice" "water plants" "balcony" 450 ;;
                     poll_pending_schedules) delivered_world in
  let fired := exec (fire bot_up_env (mk_job None RunNow 3)) swept in
  In (mk_job None RunNow 3) (jobs swept) /\
  fst (fire bot_up_env (mk_job None RunNow 3) swept) = Ok tt /\
  spoken (trace fired)
  = ["Reminder for Alice: water plants at 450. balcony"] /\
  Db.lookup (db fired) 3
  = Some (Db.mk_row 3 "alice" "water plants" "balcony" 450 1) /\
  forall t, ~ In 3 (Db.select_due (db fired) t).
Proof.
  apply (reminder_round_trip bot_up_env delivered_world "alice" "water plants"
           "balcony" 450).
  - repeat split; simpl; [|lia|].
    + repeat constructor; simpl; intuition discriminate.
    + repeat constructor; simpl; lia.
  - simpl. lia.
  - reflexivity.
Defined.

(** ** The unknown-subject handler, step by step *)

Lemma on_unknown_face_trace
    (E : env) (photo : list Byte.byte) (w : world) :
  file_write_ok E (unknown_face_filename (clock w)) = true ->
  let w' := exec (on_unknown_face E photo) w in
  trace w'
  = (trace w
       ++ EvSaveFile (unknown_face_filename (clock w)) photo true
       :: (if telegram_bot E
           then [EvSendPhoto photo
                   ("Unknown person seen at " ++ isoformat E (clock w))
                   (telegram_ok E (tg_calls w))]
           else [])
       ++ [EvSpeak (unknown_face_speech E w)])%list /\
  tg_calls w' = (if telegram_bot E then S (tg_calls w) else tg_calls w) /\
  db w' = db w /\ jobs w' = jobs w.
Proof.
  intros Hf. cbv zeta.
  destruct (on_unknown_face_db E photo w) as [Hd Hj].
  split; [|split; [|split; assumption]].
  - unfold on_unknown_face, save_file, unknown_face_speech, exec.
    cbv beta iota zeta delta [bind try_except time_time gets modify].
    cbn [clock emit]. rewrite Hf. cbv beta iota delta [ret].
    rewrite send_photo_to_owner_run.
    destruct (telegram_bot E); cbn [negb]; cbv beta iota zeta.
    + destruct (telegram_ok E (tg_calls w)) eqn:Hok; cbn [tg_calls emit];
        rewrite ?Hok; rewrite speak_run;
        unfold advance, emit, count_tg_call; cbn [snd trace];
        rewrite <- !app_assoc; reflexivity.
    + rewrite speak_run. unfold advance, emit. cbn [snd trace].
      rewrite <- !app_assoc. reflexivity.
  - unfold on_unknown_face, save_file, exec.
    cbv beta iota zeta delta [bind try_except time_time gets modify].
    cbn [clock emit]. rewrite Hf. cbv beta iota delta [ret].
    rewrite send_photo_to_owner_run.
    destruct (telegram_bot E); cbn [negb]; cbv beta iota zeta.
    + destruct (telegram_ok E (tg_calls w)) eqn:Hok; cbn [tg_calls emit];
        rewrite ?Hok; rewrite speak_run; reflexivity.
    + rewrite speak_run. reflexivity.
Qed.

(** X17: once the snapshot is written, the handler has done, in this order:
    saved the photo under [captured/unknown_<clock>.jpg], sent that same
    photo in one Bot API call if a bot is configured (and made no call
    otherwise), and spoken one sentence.  It touches neither the store nor
    the job store. *)
Theorem on_unknown_face_steps
    (E : env) (photo : list Byte.byte) (w : world) :
  file_write_ok E (unknown_face_filename (clock w)) = true ->
  let w' := exec (on_unknown_face E photo) w in
  trace w'
  = (trace w
       ++ EvSaveFile (unknown_face_filename (clock w)) photo true
       :: (if telegram_bot E
           then [EvSendPhoto photo
                   ("Unknown person seen at " ++ isoformat E (clock w))
                   (telegram_ok E (tg_calls w))]
           else [])
       ++ [EvSpeak (unknown_face_speech E w)])%list /\
  tg_calls w' = (if telegram_bot E then S (tg_calls w) else tg_calls w) /\
  db w' = db w /\ jobs w' = jobs w.
Proof. apply on_unknown_face_trace. Qed.

Lemma on_unknown_face_steps_witness :
  let w' := exec (on_unknown_face bot_up_env []) delivered_world in
  trace w'
  = [EvSaveFile "captured/unknown_500.jpg" [] true;
     EvSendPhoto [] "Unknown person seen at 500" true;
     EvSpeak msg_owner_notified] /\
  tg_calls w' = 1%nat /\
  db w' = db delivered_world /\ jobs w' = jobs delivered_world.
Proof.
  apply (on_unknown_face_steps bot_up_env [] delivered_world).
  reflexivity.
Defined.

(** X18: the snapshot's file name is determined by the second in which the
    handler runs and determines it: two runs write to the same file exactly
    when their clocks read the same second, so a second unknown face within
    one second overwrites the first snapshot and later ones never do. *)
Theorem unknown_face_filename_by_second
    (E : env) (photo : list Byte.byte) (w1 w2 : world) :
  (exists ok rest,
      trace (exec (on_unknown_face E photo) w1)
      = (trace w1
           ++ EvSaveFile (unknown_face_filename (clock w1)) photo ok
           :: rest)%list) /\
  (unknown_face_filename (clock w1) = unknown_face_filename (clock w2)
   <-> clock w1 = clock w2).
Proof.
  split.
  - unfold on_unknown_face, save_file, exec.
    cbv beta iota zeta delta [bind try_except time_time gets modify].
    cbn [clock emit].
    destruct (file_write_ok E (unknown_face_filename (clock w1))) eqn:Hf;
      cbv beta iota delta [ret raise].
    + exists true.
      pose proof (on_unknown_face_trace E photo w1 Hf) as [Ht _].
      unfold on_unknown_face, save_file, exec in Ht.
      cbv beta iota zeta delta [bind try_except time_time gets modify] in Ht.
      cbn [clock emit] in Ht. rewrite Hf in Ht.
      cbv beta iota delta [ret] in Ht.
      eexists. exact Ht.
    + exists false, []. reflexivity.
  - split; [|now intros ->].
    unfold unknown_face_filename. intros H.
    apply (append_inj_l CAMERA_SAVE_DIR) in H.
    apply (append_inj_l "/") in H.
    apply (append_inj_l "unknown_") in H.
    apply append_inj_r in H. now apply str_of_Z_inj.
Qed.

(** ** Path separators *)

Lemma slash_in_append (a b : string) :
  In "/"%char (list_ascii_of_string (a ++ String "/" b)).
Proof.
  induction a as [|c a IH]; cbn; [now left | now right].
Qed.

(** What precedes the last separator of a path is determined by the path. *)
Lemma before_last_slash (p q s s' : string) :
  p ++ "/" ++ s = q ++ "/" ++ s' ->
  ~ In "/"%char (list_ascii_of_string s) ->
  ~ In "/"%char (list_ascii_of_string s') ->
  p = q.
Proof.
  revert q; induction p as [|c p IH]; intros [|d q] H Hs Hs'.
  - reflexivity.
  - cbn in H. injection H as _ H. subst s. elim Hs. apply slash_in_append.
  - cbn in H. injection H as _ H. subst s'. elim Hs'. apply slash_in_append.
  - cbn in H. injection H as -> H. f_equal. now apply (IH q).
Qed.

Lemma list_ascii_app (a b : string) :
  list_ascii_of_string (a ++ b)
  = (list_ascii_of_string a ++ list_ascii_of_string b)%list.
Proof. induction a as [|c a IH]; cbn; [reflexivity | now rewrite IH]. Qed.

Lemma string_of_uint_no_slash (d : Decimal.uint) :
  ~ In "/"%char (list_ascii_of_string (NilEmpty.string_of_uint d)).
Proof.
  induction d; cbn; [tauto | intros [H|H]; [discriminate H | tauto] ..].
Qed.

Lemma str_of_Z_no_slash (n : Z) :
  ~ In "/"%char (list_ascii_of_string (PyStr.str_of_Z n)).
Proof.
  unfold PyStr.str_of_Z, NilZero.string_of_int, NilZero.string_of_uint.
  destruct (Z.to_int n) as [d|d].
  - destruct d; try apply string_of_uint_no_slash.
    cbn. intros [H|[]]. discriminate H.
  - cbn [list_ascii_of_string]. intros [H|H]; [discriminate H|].
    revert H. destruct d; try apply string_of_uint_no_slash.
    cbn. intros [H|[]]. discriminate H.
Qed.

Lemma jpg_name_no_slash (k : nat) :
  ~ In "/"%char
      (list_ascii_of_string (PyStr.str_of_Z (Z.of_nat k) ++ ".jpg")).
Proof.
  rewrite list_ascii_app. intros H. apply in_app_or in H as [H|H].
  - now apply str_of_Z_no_slash in H.
  - cbn in H. intuition discriminate.
Qed.

(* ================================================================== *)
(** ** [prepare_dataset.py] *)

Module PrepareDatasetFacts.
Import PrepareDataset.

Section Images.

Variables image face : Type.
Variable cvtColor : image -> image.
Variable detectMultiScale : image -> list rect.
Variable crop_resize : image -> rect -> face.

Lemma numbered_app (out : string) (c : nat) (a b : list face) :
  numbered out c (a ++ b)
  = (numbered out c a ++ numbered out (c + List.length a) b)%list.
Proof.
  revert c; induction a as [|x a IH]; intros c; cbn [app numbered].
  - now rewrite Nat.add_0_r.
  - rewrite IH. cbn [List.length]. now rewrite Nat.add_succ_r.
Qed.

Lemma write_faces_numbered (out : string) (gray : image) (faces : list rect)
    (count : nat) :
  write_faces crop_resize out gray faces count
  = ((count + List.length faces)%nat,
     numbered out count (map (crop_resize gray) faces)).
Proof.
  revert count; induction faces as [|f faces IH]; intros count;
    cbn [write_faces map numbered List.length].
  - now rewrite Nat.add_0_r.
  - rewrite IH. now rewrite Nat.add_succ_r.
Qed.

Lemma process_files_numbered (out : string)
    (files : list (string * option image)) (count : nat) :
  process_files cvtColor detectMultiScale crop_resize out files count
  = ((count
      + List.length (faces_of cvtColor detectMultiScale crop_resize files))%nat,
     numbered out count (faces_of cvtColor detectMultiScale crop_resize files)).
Proof.
  revert count; induction files as [|[name [img|]] files IH]; intros count;
    unfold faces_of in *; cbn [process_files flat_map snd].
  - cbn. now rewrite Nat.add_0_r.
  - rewrite write_faces_numbered, IH.
    rewrite length_app, length_map, numbered_app, length_map.
    now rewrite Nat.add_assoc.
  - rewrite IH. reflexivity.
Qed.

Lemma written_paths_numbered (out : string) (c : nat) (fs : list face) :
  written_paths (numbered out c fs)
  = map (fun k => path_join out (PyStr.str_of_Z (Z.of_nat k) ++ ".jpg"))
        (seq (S c) (List.length fs)).
Proof.
  revert c; induction fs as [|f fs IH]; intros c; [reflexivity|].
  cbn [numbered List.length seq map]. unfold written_paths in *.
  cbn [flat_map app]. f_equal. apply IH.
Qed.

(** X19: for a folder of [raw_images], the faces of its readable images are
    written in the order they are found, under the numbers 1, 2, ... with no
    gap, whatever image they come from; files that cannot be read contribute
    nothing; and the count reported for the person is the number of files
    written. *)
Theorem process_images_folder (person : string)
    (files : list (string * option image)) (raw : list (string * entry image)) :
  let out := path_join PROC person in
  let found := faces_of cvtColor detectMultiScale crop_resize files in
  let later := process_images cvtColor detectMultiScale crop_resize raw in
  process_images cvtColor detectMultiScale crop_resize
    ((person, Folder files) :: raw)
  = ((MakeDirs out
      :: numbered out 0 found
      ++ Print person (List.length found)
      :: fst later)%list,
     snd later) /\
  written_paths (numbered out 0 found)
  = map (fun k => path_join out (PyStr.str_of_Z (Z.of_nat k) ++ ".jpg"))
        (seq 1 (List.length found)).
Proof.
  cbv zeta. split; [|apply written_paths_numbered].
  cbn [process_images].
  rewrite process_files_numbered. cbn [Nat.add].
  now destruct (process_images cvtColor detectMultiScale crop_resize raw).
Qed.

Lemma output_folder_inj (p q n n' : string) :
  path_join (path_join PROC p) n = path_join (path_join PROC q) n' ->
  ~ In "/"%char (list_ascii_of_string n) ->
  ~ In "/"%char (list_ascii_of_string n') ->
  p = q.
Proof.
  unfold path_join. intros H Hn Hn'.
  apply before_last_slash in H; [|assumption ..].
  apply (append_inj_l PROC) in H. now apply (append_inj_l "/") in H.
Qed.

Lemma written_paths_app (a b : list (effect face)) :
  written_paths (a ++ b) = (written_paths a ++ written_paths b)%list.
Proof. unfold written_paths. apply flat_map_app. Qed.

Lemma numbered_paths_NoDup (out : string) (c : nat) (fs : list face) :
  NoDup (written_paths (numbered out c fs)).
Proof.
  rewrite written_paths_numbered.
  generalize (seq_NoDup (List.length fs) (S c)).
  generalize (seq (S c) (List.length fs)) as l.
  induction l as [|k l IH]; intros Hnd; cbn [map]; [constructor|].
  inversion Hnd as [|? ? Hk Hl]; subst. constructor; [|now apply IH].
  intros Hin. apply in_map_iff in Hin as (k' & He & Hk').
  unfold path_join in He.
  apply (append_inj_l out) in He.
  apply (append_inj_l "/") in He.
  apply append_inj_r, str_of_Z_inj, Nat2Z.inj in He.
  now subst.
Qed.

(** Every file written by a run lies in the output folder of one of the
    listed entries, under a name without a separator. *)
Lemma process_images_paths (raw : list (string * entry image)) (x : string) :
  In x (written_paths
          (fst (process_images cvtColor detectMultiScale crop_resize raw))) ->
  exists person k,
    In person (map fst raw) /\
    x = path_join (path_join PROC person)
                  (PyStr.str_of_Z (Z.of_nat k) ++ ".jpg").
Proof.
  induction raw as [|[person [files|]] raw IH]; cbn [process_images].
  - intros [].
  - rewrite process_files_numbered.
    destruct (process_images cvtColor detectMultiScale crop_resize raw)
      as [rest err].
    cbn [fst map] in *.
    change (MakeDirs (path_join PROC person) :: ?l)%list
      with ([MakeDirs (face:=face) (path_join PROC person)] ++ l)%list.
    rewrite !written_paths_app.
    change (Print person ?n :: rest)%list
      with ([Print (face:=face) person n] ++ rest)%list.
    rewrite written_paths_app. cbn [written_paths flat_map app].
    intros Hx. apply in_app_or in Hx as [Hx|Hx].
    + rewrite written_paths_numbered in Hx.
      apply in_map_iff in Hx as (k & <- & _).
      exists person, k. split; [now left | reflexivity].
    + destruct (IH Hx) as (q & k & Hq & ->).
      exists q, k. split; [now right | reflexivity].
  - cbn. intros [].
Qed.

(** X20: in a run over a listing of [raw_images] (whose names, as
    [os.listdir] gives them, are pairwise distinct), no face overwrites
    another: the paths written by [process_images], across all folders and up
    to the point where the run ends, are pairwise distinct. *)
Theorem process_images_no_overwrite (raw : list (string * entry image)) :
  NoDup (map fst raw) ->
  NoDup (written_paths
           (fst (process_images cvtColor detectMultiScale crop_resize raw))).
Proof.
  induction raw as [|[person [files|]] raw IH]; cbn [process_images map fst];
    intros Hnd.
  - constructor.
  - inversion Hnd as [|? ? Hp Hrest]; subst.
    specialize (IH Hrest).
    pose proof (process_images_paths raw) as Hpaths.
    rewrite process_files_numbered.
    destruct (process_images cvtColor detectMultiScale crop_resize raw)
      as [rest err].
    cbn [fst] in *.
    change (MakeDirs (path_join PROC person) :: ?l)%list
      with ([MakeDirs (face:=face) (path_join PROC person)] ++ l)%list.
    rewrite !written_paths_app.
    change (Print person ?n :: rest)%list
      with ([Print (face:=face) person n] ++ rest)%list.
    rewrite written_paths_app. cbn [written_paths flat_map app].
    apply NoDup_app; [apply numbered_paths_NoDup | exact IH |].
    intros x Hx Hx'.
    rewrite written_paths_numbered in Hx.
    apply in_map_iff in Hx as (k & <- & _).
    destruct (Hpaths _ Hx') as (q & k' & Hq & He).
    cbv beta in He.
    apply output_folder_inj in He;
      [subst q; contradiction | apply jpg_name_no_slash ..].
  - constructor.
Qed.

(** X21: an entry of [raw_images] that is not a folder ends the run with
    [NotADirectoryError], after its output folder has been created: the
    folders before it are processed in full and the entries after it are not
    looked at. *)
Theorem process_images_not_a_folder
    (pre : list (string * entry image)) (person : string)
    (rest : list (string * entry image)) :
  Forall (fun pe => snd pe <> NotAFolder) pre ->
  snd (process_images cvtColor detectMultiScale crop_resize pre) = None /\
  process_images cvtColor detectMultiScale crop_resize
    (pre ++ (person, NotAFolder) :: rest)
  = ((fst (process_images cvtColor detectMultiScale crop_resize pre)
        ++ [MakeDirs (path_join PROC person)])%list,
     Some (NotADirectoryError (path_join RAW person))).
Proof.
  induction 1 as [|[p e] pre He _ [IH1 IH2]].
  - split; reflexivity.
  - destruct e as [files|]; [|now elim He].
    cbn [app process_images].
    rewrite IH2. cbn [fst snd].
    destruct (process_files _ _ _ _ _ _) as [count ws].
    destruct (process_images cvtColor detectMultiScale crop_resize pre)
      as [effs err].
    cbn [fst snd] in *. subst err. split; [reflexivity|].
    f_equal. cbn [app]. f_equal. rewrite <- app_assoc. reflexivity.
Qed.

End Images.

Lemma process_images_no_overwrite_witness :
  NoDup (written_paths
           (fst (process_images (fun i => i) toy_detect toy_crop
                   (toy_raw ++ [("bob", Folder [("c.jpg", Some 1%nat)])])))) /\
  written_paths
    (fst (process_images (fun i => i) toy_detect toy_crop
            (toy_raw ++ [("bob", Folder [("c.jpg", Some 1%nat)])])))
  = ["processed/ann/1.jpg"; "processed/ann/2.jpg"; "processed/ann/3.jpg";
     "processed/bob/1.jpg"].
Proof.
  split; [|reflexivity].
  apply (process_images_no_overwrite nat nat (fun i => i) toy_detect toy_crop
           (toy_raw ++ [("bob", Folder [("c.jpg", Some 1%nat)])])).
  repeat constructor; cbn; intuition discriminate.
Defined.

Lemma process_images_not_a_folder_witness :
  snd (process_images (fun i => i) toy_detect toy_crop toy_raw) = None /\
  process_images (fun i => i) toy_detect toy_crop
    (toy_raw ++ ("README.md", NotAFolder) :: [("zed", Folder [])])
  = ([MakeDirs "processed/ann";
      ImWrite "processed/ann/1.jpg" 2%nat;
      ImWrite "processed/ann/2.jpg" 2%nat;
      ImWrite "processed/ann/3.jpg" 1%nat;
      Print "ann" 3;
      MakeDirs "processed/README.md"],
     Some (NotADirectoryError "raw_images/README.md")).
Proof.
  apply (process_images_not_a_folder nat nat (fun i => i) toy_detect toy_crop
           toy_raw "README.md" [("zed", Folder [])]).
  repeat constructor. discriminate.
Defined.

End PrepareDatasetFacts.
